(** * Media catalog server: metadata index, quota check and handlers

    A shallow embedding of the three Express servers of the repository
    (the local-disk server, the firebase-admin server and the Cloud
    Functions server) and the properties of their handlers. *)

From Stdlib Require Import ZArith Lia Ascii String.
From stdpp Require Import base option list strings.

Open Scope string_scope.
Open Scope Z_scope.

(** ** JavaScript values carried by request bodies

    Request bodies are parsed JSON (PUT) or multipart text fields (POST).
    A field that is absent reads as [undefined], which is modelled by
    [None] in an [option jsval].  Numbers are restricted to integers;
    arrays and objects are not modelled. *)

Inductive jsval : Type :=
| JNull
| JBool (b : bool)
| JNum (n : Z)
| JStr (s : string).

#[global] Instance jsval_eq_dec : EqDecision jsval.
Proof. solve_decision. Defined.

(** ToBoolean. *)
Definition truthy (v : jsval) : bool :=
  match v with
  | JNull => false
  | JBool b => b
  | JNum n => negb (n =? 0)
  | JStr s => negb (String.eqb s "")
  end.

(** ToBoolean of a possibly [undefined] value. *)
Definition truthy_opt (v : option jsval) : bool :=
  match v with
  | None => false
  | Some x => truthy x
  end.

(** [a === b] on values that are not [undefined]. *)
Definition strict_eq (a b : jsval) : bool :=
  match a, b with
  | JNull, JNull => true
  | JBool x, JBool y => Bool.eqb x y
  | JNum x, JNum y => x =? y
  | JStr x, JStr y => String.eqb x y
  | _, _ => false
  end.

(** [a === b] where [a] may be [undefined] and [b] is a literal. *)
Definition strict_eq_opt (a : option jsval) (b : jsval) : bool :=
  match a with
  | None => false
  | Some x => strict_eq x b
  end.

(** [a || b]. *)
Definition js_or (a : option jsval) (b : jsval) : jsval :=
  match a with
  | Some x => if truthy x then x else b
  | None => b
  end.

(** ** Media records and the metadata index *)

Record MediaRecord : Type := mkMedia {
  id : string;
  name : jsval;
  type : string;
  url : string;
  platformId : jsval;
  isThumbnail : bool
}.

#[global] Instance MediaRecord_eq_dec : EqDecision MediaRecord.
Proof. solve_decision. Defined.

Definition set_name (v : jsval) (f : MediaRecord) : MediaRecord :=
  mkMedia (id f) v (type f) (url f) (platformId f) (isThumbnail f).

Definition set_platformId (v : jsval) (f : MediaRecord) : MediaRecord :=
  mkMedia (id f) (name f) (type f) (url f) v (isThumbnail f).

Definition set_isThumbnail (b : bool) (f : MediaRecord) : MediaRecord :=
  mkMedia (id f) (name f) (type f) (url f) (platformId f) b.

(** [req.body]: the three fields the handlers read. *)
Record body : Type := mkBody {
  body_name : option jsval;
  body_platformId : option jsval;
  body_isThumbnail : option jsval
}.

(** What a handler sends back. *)
Inductive reply : Type :=
| ReplyJson (f : MediaRecord)              (* res.json(record) *)
| ReplyList (l : list MediaRecord)         (* res.json(mediaFiles) *)
| ReplyMessage (m : string)                (* res.json({ message }) *)
| ReplyError (status : Z) (err : string)   (* res.status(s).json({ error }) *)
| UploadError (msg : string)               (* error raised by the upload middleware *)
| NoReply.                                 (* the async handler rejected: nothing is sent *)

Definition FileNotFound : reply := ReplyError 404 "File not found".
Definition NoFileUploaded : reply := ReplyError 400 "No file uploaded".
Definition CapacityExceeded : reply :=
  ReplyError 413 "Total storage capacity exceeded (500MB limit)".
Definition UploadFailed : reply := ReplyError 500 "Failed to upload file".
Definition DeleteFailed : reply := ReplyError 500 "Failed to delete file".
Definition FetchFailed : reply := ReplyError 500 "Failed to fetch media".
Definition FileDeleted : reply := ReplyMessage "File deleted".
Definition UnsupportedMediaType : reply :=
  UploadError "Invalid file type. Use JPEG, PNG, MP4, WebM, MP3, or WAV.".
Definition ObjectTooLarge : reply := UploadError "File too large".

Definition MAX_TOTAL_SIZE : Z := 500 * 1024 * 1024.
Definition fileSizeLimit : Z := 100 * 1024 * 1024.

(** ** PUT /api/media/:id  (the same text in the three servers)

    [file] is a reference to an element of [mediaFiles]; it is modelled
    by the index [k] of that element, and every assignment through it
    by [alter] at [k]. *)

(** The body of the [forEach] callback. *)
Definition clearOther (pid : jsval) (i : string) (f : MediaRecord) : MediaRecord :=
  if strict_eq (platformId f) pid && negb (String.eqb (id f) i)
  then set_isThumbnail false f
  else f.

Definition assignName (b : body) (k : nat) (mediaFiles : list MediaRecord) :=
  match body_name b with
  | Some v => if truthy v then alter (set_name v) k mediaFiles else mediaFiles
  | None => mediaFiles
  end.

Definition assignPlatformId (b : body) (k : nat) (mediaFiles : list MediaRecord) :=
  match body_platformId b with
  | Some v => alter (set_platformId v) k mediaFiles
  | None => mediaFiles
  end.

Definition assignIsThumbnail (i : string) (b : body) (k : nat)
    (mediaFiles : list MediaRecord) :=
  match body_isThumbnail b with
  | Some t =>
      match body_platformId b with
      | Some pid =>
          if truthy t && truthy pid
          then alter (set_isThumbnail true) k (clearOther pid i <$> mediaFiles)
          else alter (set_isThumbnail false) k mediaFiles
      | None => alter (set_isThumbnail false) k mediaFiles
      end
  | None => mediaFiles
  end.

Definition updateMedia (i : string) (b : body) (mediaFiles : list MediaRecord)
  : reply * list MediaRecord :=
  match list_find (λ f, id f = i) mediaFiles with
  | None => (FileNotFound, mediaFiles)
  | Some (k, _) =>
      let mediaFiles' :=
        assignIsThumbnail i b k (assignPlatformId b k (assignName b k mediaFiles)) in
      match mediaFiles' !! k with
      | Some file => (ReplyJson file, mediaFiles')
      | None => (NoReply, mediaFiles')
      end
  end.

(** ** Node's [path] and [String.prototype.split] on the strings the
    handlers apply them to *)

Definition slash : ascii := "/"%char.
Definition dot : ascii := "."%char.

Fixpoint dropWhile (p : ascii → bool) (l : list ascii) : list ascii :=
  match l with
  | [] => []
  | c :: rest => if p c then dropWhile p rest else l
  end.

Fixpoint takeUntil (p : ascii → bool) (l : list ascii) : list ascii :=
  match l with
  | [] => []
  | c :: rest => if p c then [] else c :: takeUntil p rest
  end.

Definition isSlash (c : ascii) : bool := Ascii.eqb c slash.
Definition isDot (c : ascii) : bool := Ascii.eqb c dot.

(** [path.basename(p)]: trailing slashes are ignored and the last
    segment is returned. *)
Definition basename (p : string) : string :=
  string_of_list_ascii
    (reverse (takeUntil isSlash (dropWhile isSlash (reverse (list_ascii_of_string p))))).

(** [path.extname(p)]: from the last dot of the base name to its end;
    empty when there is no dot, when the only dot leads the base name,
    or when the base name is [..]. *)
Definition extname (p : string) : string :=
  let b := reverse (list_ascii_of_string (basename p)) in
  let ext := takeUntil isDot b in
  if bool_decide (length ext = length b) then ""
  else if bool_decide (S (length ext) = length b) then ""
  else if String.eqb (basename p) ".." then ""
  else string_of_list_ascii (dot :: reverse ext).

(** [s.split(sep)] for a non-empty separator: [skip] counts the
    characters of a matched separator still to be passed over and
    [piece] holds the current piece, last character first. *)
Fixpoint splitChars (sep s : list ascii) (skip : nat) (piece : list ascii)
  : list (list ascii) :=
  match s with
  | [] => [reverse piece]
  | c :: rest =>
      match skip with
      | S n => splitChars sep rest n piece
      | O =>
          if bool_decide (sep `prefix_of` s)
          then reverse piece :: splitChars sep rest (length sep - 1) []
          else splitChars sep rest 0 (c :: piece)
      end
  end.

Definition split (sep s : string) : list string :=
  string_of_list_ascii <$>
    splitChars (list_ascii_of_string sep) (list_ascii_of_string s) 0 [].

(** ** The upload middleware: what the three servers share *)

(** The uploaded part as the client sends it. *)
Record upload : Type := mkUpload {
  originalname : string;
  mimetype : string;
  size : Z
}.

Record request : Type := mkRequest {
  file : option upload;
  req_body : body
}.

Definition allowedTypes : list string :=
  ["image/jpeg"; "image/png"; "video/mp4"; "video/webm"; "audio/mpeg"; "audio/wav"].

(** [fileFilter]: [true] accepts the part, [false] raises the error. *)
Definition fileFilter (f : upload) : bool :=
  bool_decide (mimetype f ∈ allowedTypes).

(** The object literal [newFile] of the POST handlers; [location] is the
    value of its [url] field. *)
Definition newFile (uuid : string) (f : upload) (location : string) (b : body)
  : MediaRecord :=
  {| id := uuid;
     name := js_or (body_name b) (JStr (originalname f));
     type := mimetype f;
     url := location;
     platformId := js_or (body_platformId b) JNull;
     isThumbnail := strict_eq_opt (body_isThumbnail b) (JStr "true") |}.

(** ** The local-disk server (backend/server.js) *)

Module Local.

(** The tree below [UPLOAD_PATH]. *)
#[warnings="-register-all"]
Inductive fsnode : Type :=
| File (n : string) (sz : Z)
| Dir (n : string) (entries : list fsnode).

Record world : Type := mkWorld {
  disk : list fsnode;              (* the entries of UPLOAD_PATH *)
  mediaFiles : list MediaRecord
}.

(** One round of the loop of [getDirSize]: the size of a file, or the
    recursive total of a directory. *)
Fixpoint entrySize (e : fsnode) : Z :=
  match e with
  | File _ sz => sz
  | Dir _ entries =>
      (fix loop (files : list fsnode) (total : Z) {struct files} : Z :=
         match files with
         | [] => total
         | f :: rest => loop rest (total + entrySize f)
         end) entries 0
  end.

Definition getDirSize (dir : list fsnode) : Z :=
  foldl (λ total f, total + entrySize f) 0 dir.

(** Writing [n] into [UPLOAD_PATH]: an existing file of that name is
    replaced; a directory of that name makes the write fail. *)
Fixpoint writeFile (n : string) (sz : Z) (dir : list fsnode)
  : option (list fsnode) :=
  match dir with
  | [] => Some [File n sz]
  | File m s :: rest =>
      if String.eqb m n then Some (File n sz :: rest)
      else cons (File m s) <$> writeFile n sz rest
  | Dir m es :: rest =>
      if String.eqb m n then None
      else cons (Dir m es) <$> writeFile n sz rest
  end.

Fixpoint removeEntry (n : string) (dir : list fsnode) : option (list fsnode) :=
  match dir with
  | [] => None
  | File m s :: rest =>
      if String.eqb m n then Some rest
      else cons (File m s) <$> removeEntry n rest
  | Dir m es :: rest =>
      if String.eqb m n then None
      else cons (Dir m es) <$> removeEntry n rest
  end.

(** [fs.unlink(path.join(UPLOAD_PATH, n))] for a name without slash:
    the empty name, [.] and [..] resolve to directories. *)
Definition unlink (n : string) (dir : list fsnode) : option (list fsnode) :=
  if String.eqb n "" || String.eqb n "." || String.eqb n ".." then None
  else removeEntry n dir.

(** [filename] of the disk storage. *)
Definition filename (uuid : string) (f : upload) : string :=
  uuid ++ extname (originalname f).

(** [upload.single('file')] with the disk storage: the filter runs
    before the storage, the storage writes the part under
    [UPLOAD_PATH], and a part over the size limit is removed again. *)
Definition upload_single (uuid : string) (req : request) (dir : list fsnode)
  : reply + (option (upload * string) * list fsnode) :=
  match file req with
  | None => inr (None, dir)
  | Some f =>
      if negb (fileFilter f) then inl UnsupportedMediaType
      else if fileSizeLimit <? size f then inl ObjectTooLarge
      else match writeFile (filename uuid f) (size f) dir with
           | Some dir' => inr (Some (f, filename uuid f), dir')
           | None => inl (UploadError "EISDIR: illegal operation on a directory")
           end
  end.

(** GET /api/media *)
Definition listMedia (w : world) : reply * world :=
  (ReplyList (mediaFiles w), w).

(** POST /api/media.  [uuidFile] and [uuidRec] are the results of the
    two calls of [uuidv4]. *)
Definition createMedia (uuidFile uuidRec : string) (req : request) (w : world)
  : reply * world :=
  match upload_single uuidFile req (disk w) with
  | inl err => (err, w)
  | inr (None, _) => (NoFileUploaded, w)
  | inr (Some (f, fname), dir) =>
      let currentSize := getDirSize dir in
      let newSize := currentSize + size f in
      if MAX_TOTAL_SIZE <? newSize then
        match unlink fname dir with
        | Some dir' => (CapacityExceeded, mkWorld dir' (mediaFiles w))
        | None => (NoReply, mkWorld dir (mediaFiles w))
        end
      else
        let nf := newFile uuidRec f ("/uploads/" ++ fname) (req_body req) in
        (ReplyJson nf, mkWorld dir (mediaFiles w ++ [nf]))
  end.

(** PUT /api/media/:id *)
Definition updateMedia (i : string) (b : body) (w : world) : reply * world :=
  let '(r, mf) := updateMedia i b (mediaFiles w) in (r, mkWorld (disk w) mf).

(** DELETE /api/media/:id *)
Definition deleteMedia (i : string) (w : world) : reply * world :=
  match list_find (λ f, id f = i) (mediaFiles w) with
  | None => (FileNotFound, w)
  | Some (_, file) =>
      match unlink (basename (url file)) (disk w) with
      | Some dir' =>
          (FileDeleted, mkWorld dir' (filter (λ f, id f ≠ i) (mediaFiles w)))
      | None => (DeleteFailed, w)
      end
  end.

End Local.

(** ** The storage bucket behind the two cloud servers *)

Module Bucket.

Record object : Type := mkObject {
  oname : string;
  osize : Z;                 (* [metadata.size], read with [parseInt] *)
  contentType : string;
  mediaLink : string
}.

(** The bucket, the server's index, and the environment of the
    bucket: [outage n] tells whether the [n]-th request to the bucket
    fails, [clock] counts the requests made so far and [linkOf] is
    the media link the bucket gives to an object name. *)
Record world : Type := mkWorld {
  objects : list object;
  outage : nat → bool;
  linkOf : string → string;
  clock : nat;
  mediaFiles : list MediaRecord
}.

Inductive exn : Type := StoreError | TypeError | ReferenceError.

Inductive result (A : Type) : Type :=
| Ok (a : A)
| Throw (e : exn).
Arguments Ok {A} a.
Arguments Throw {A} e.

(** Computations that read and write the world and may throw. *)
Definition M (A : Type) : Type := world → result A * world.

Definition ret {A} (a : A) : M A := λ w, (Ok a, w).
Definition throw {A} (e : exn) : M A := λ w, (Throw e, w).
Definition bind {A B} (m : M A) (k : A → M B) : M B :=
  λ w, match m w with
       | (Ok a, w') => k a w'
       | (Throw e, w') => (Throw e, w')
       end.

Definition tick (w : world) : world :=
  mkWorld (objects w) (outage w) (linkOf w) (S (clock w)) (mediaFiles w).

Definition setObjects (objs : list object) (w : world) : world :=
  mkWorld objs (outage w) (linkOf w) (clock w) (mediaFiles w).

Definition setMediaFiles (mf : list MediaRecord) (w : world) : world :=
  mkWorld (objects w) (outage w) (linkOf w) (clock w) mf.

(** One request to the bucket. *)
Definition storeCall {A} (op : M A) : M A :=
  λ w, if outage w (clock w) then (Throw StoreError, tick w) else op (tick w).

Definition findObject (n : string) (objs : list object) : option object :=
  snd <$> list_find (λ o, oname o = n) objs.

Definition getFiles (pre : string) : M (list object) :=
  storeCall (λ w, (Ok (filter (λ o, String.prefix pre (oname o) = true) (objects w)), w)).

Definition getMetadata (n : string) : M object :=
  storeCall (λ w, match findObject n (objects w) with
                  | Some o => (Ok o, w)
                  | None => (Throw StoreError, w)
                  end).

Definition save (n : string) (sz : Z) (ct : string) : M unit :=
  storeCall (λ w,
    let o := mkObject n sz ct (linkOf w n) in
    (Ok tt, setObjects (filter (λ o, oname o ≠ n) (objects w) ++ [o]) w)).

Definition makePublic (n : string) : M unit :=
  storeCall (λ w, match findObject n (objects w) with
                  | Some _ => (Ok tt, w)
                  | None => (Throw StoreError, w)
                  end).

Definition deleteObject (n : string) : M unit :=
  storeCall (λ w, match findObject n (objects w) with
                  | Some _ => (Ok tt, setObjects (filter (λ o, oname o ≠ n) (objects w)) w)
                  | None => (Throw StoreError, w)
                  end).

(** [upload.single('file')] with the memory storage: nothing is
    written anywhere. *)
Definition upload_single (req : request) : reply + option upload :=
  match file req with
  | None => inr None
  | Some f =>
      if negb (fileFilter f) then inl UnsupportedMediaType
      else if fileSizeLimit <? size f then inl ObjectTooLarge
      else inr (Some f)
  end.

End Bucket.

Notation "'await' x := m 'in' k" := (Bucket.bind m (λ x, k))
  (at level 10, x name, m at level 100, k at level 200, only parsing).

(** ** The firebase-admin server *)

Module Firebase.
Import Bucket.

Definition bucketName : string := "drone-catalog.appspot.com".

(** The [for] loop of [getTotalSize]: a failing request leaves the
    loop through the [catch], which keeps the total reached so far. *)
Fixpoint sumSizes (files : list object) (total : Z) (w : world) : Z * world :=
  match files with
  | [] => (total, w)
  | f :: rest =>
      match getMetadata (oname f) w with
      | (Ok metadata, w') => sumSizes rest (total + osize metadata) w'
      | (Throw _, w') => (total, w')
      end
  end.

Definition getTotalSize (w : world) : Z * world :=
  match getFiles "media/" w with
  | (Ok files, w') => sumSizes files 0 w'
  | (Throw _, w') => (0, w')
  end.

(** The record the GET handler builds for a listed object. *)
Definition listed (uuid : string) (metadata : object) : MediaRecord :=
  {| id := uuid;
     name := JStr (List.last (split "/" (oname metadata)) "");
     type := contentType metadata;
     url := "https://storage.googleapis.com/" ++ bucketName ++ "/"
            ++ oname metadata ++ "?alt=media";
     platformId := JNull;
     isThumbnail := false |}.

(** The [for] loop of the GET handler; [uuid n] is the result of the
    [n]-th call of [uuidv4].  The index was emptied before the loop and
    grows with every object read, so a failing request leaves it
    partly rebuilt. *)
Fixpoint rebuild (uuid : nat → string) (n : nat) (files : list object) (w : world)
  : reply * world :=
  match files with
  | [] => (ReplyList (mediaFiles w), w)
  | f :: rest =>
      match getMetadata (oname f) w with
      | (Ok metadata, w') =>
          rebuild uuid (S n) rest
            (setMediaFiles (mediaFiles w' ++ [listed (uuid n) metadata]) w')
      | (Throw _, w') => (FetchFailed, w')
      end
  end.

(** GET /api/media *)
Definition listMedia (uuid : nat → string) (w : world) : reply * world :=
  match getFiles "media/" w with
  | (Ok files, w') => rebuild uuid 0 files (setMediaFiles [] w')
  | (Throw _, w') => (FetchFailed, w')
  end.

(** This server never binds the name [path]: evaluating
    [path.extname(...)] raises a ReferenceError. *)
Definition path : option (string → string) := None.

Definition path_extname (p : string) : M string :=
  match path with
  | Some ext => ret (ext p)
  | None => throw ReferenceError
  end.

(** The [try] block of the POST handler, up to the record it builds. *)
Definition persist (uuidFile uuidRec : string) (f : upload) (b : body)
  : M MediaRecord :=
  await ext := path_extname (originalname f) in
  let fileName := "media/" ++ uuidFile ++ ext in
  await _ := save fileName (size f) (mimetype f) in
  await _ := makePublic fileName in
  await metadata := getMetadata fileName in
  ret (newFile uuidRec f (mediaLink metadata) b).

(** POST /api/media *)
Definition createMedia (uuidFile uuidRec : string) (req : request) (w : world)
  : reply * world :=
  match upload_single req with
  | inl err => (err, w)
  | inr None => (NoFileUploaded, w)
  | inr (Some f) =>
      let '(currentSize, w1) := getTotalSize w in
      let newSize := currentSize + size f in
      if MAX_TOTAL_SIZE <? newSize then (CapacityExceeded, w1)
      else
        match persist uuidFile uuidRec f (req_body req) w1 with
        | (Ok nf, w2) => (ReplyJson nf, setMediaFiles (mediaFiles w2 ++ [nf]) w2)
        | (Throw _, w2) => (UploadFailed, w2)
        end
  end.

(** PUT /api/media/:id *)
Definition updateMedia (i : string) (b : body) (w : world) : reply * world :=
  let '(r, mf) := updateMedia i b (mediaFiles w) in (r, setMediaFiles mf w).

(** The path expression of the DELETE handler:
    [url.split(bucket.name + '/')[1].split('?')[0]]. *)
Definition firebasePath (u : string) : M string :=
  match split (bucketName ++ "/") u !! 1%nat with
  | None => throw TypeError
  | Some rest =>
      match split "?" rest !! 0%nat with
      | Some p => ret p
      | None => throw TypeError
      end
  end.

(** DELETE /api/media/:id *)
Definition deleteMedia (i : string) (w : world) : reply * world :=
  match list_find (λ f, id f = i) (mediaFiles w) with
  | None => (FileNotFound, w)
  | Some (fileIndex, file) =>
      match (await p := firebasePath (url file) in deleteObject p) w with
      | (Ok _, w') => (FileDeleted, setMediaFiles (delete fileIndex (mediaFiles w')) w')
      | (Throw _, w') => (DeleteFailed, w')
      end
  end.

End Firebase.

(** ** The Cloud Functions server *)

Module CloudFn.
Import Bucket.

Definition persist (uuidFile uuidRec : string) (f : upload) (b : body)
  : M MediaRecord :=
  let fileName := "media/" ++ uuidFile ++ extname (originalname f) in
  await _ := save fileName (size f) (mimetype f) in
  await metadata := getMetadata fileName in
  ret (newFile uuidRec f (mediaLink metadata) b).

Definition createMedia (uuidFile uuidRec : string) (req : request) (w : world)
  : reply * world :=
  match upload_single req with
  | inl err => (err, w)
  | inr None => (NoFileUploaded, w)
  | inr (Some f) =>
      match persist uuidFile uuidRec f (req_body req) w with
      | (Ok nf, w') => (ReplyJson nf, setMediaFiles (mediaFiles w' ++ [nf]) w')
      | (Throw _, w') => (UploadFailed, w')
      end
  end.

Definition bucketName : string := "drone-catalog-6d8a8.appspot.com".

(** The record the GET handler builds for a listed object. *)
Definition listed (uuid : string) (f : object) : MediaRecord :=
  {| id := uuid;
     name := JStr (basename (oname f));
     type := contentType f;
     url := "https://storage.googleapis.com/" ++ bucketName ++ "/"
            ++ oname f ++ "?alt=media";
     platformId := JNull;
     isThumbnail := false |}.

(** GET /api/media: one listing, mapped to records; [uuid n] is the
    result of the [n]-th call of [uuidv4]. *)
Definition listMedia (uuid : nat → string) (w : world) : reply * world :=
  match getFiles "media/" w with
  | (Ok files, w') =>
      let mf := imap (λ n f, listed (uuid n) f) files in
      (ReplyList mf, setMediaFiles mf w')
  | (Throw _, w') => (FetchFailed, w')
  end.

(** PUT /api/media/:id *)
Definition updateMedia (i : string) (b : body) (w : world) : reply * world :=
  let '(r, mf) := updateMedia i b (mediaFiles w) in (r, setMediaFiles mf w).

(** The path expression of the DELETE handler:
    [url.split(bucket.name + '/')[1]?.split('?')[0]], [None] standing
    for [undefined]. *)
Definition firebasePath (u : string) : option string :=
  match split (bucketName ++ "/") u !! 1%nat with
  | None => None
  | Some rest => split "?" rest !! 0%nat
  end.

(** DELETE /api/media/:id: the object is removed only when the path
    expression is a non-empty string. *)
Definition deleteMedia (i : string) (w : world) : reply * world :=
  match list_find (λ f, id f = i) (mediaFiles w) with
  | None => (FileNotFound, w)
  | Some (_, file) =>
      let removal : M unit :=
        match firebasePath (url file) with
        | Some p => if String.eqb p "" then ret tt else deleteObject p
        | None => ret tt
        end in
      match removal w with
      | (Ok _, w') =>
          (FileDeleted,
           setMediaFiles (filter (λ f, id f ≠ i) (mediaFiles w')) w')
      | (Throw _, w') => (DeleteFailed, w')
      end
  end.

End CloudFn.

(** ** What the PUT handler leaves behind *)

(** What the handler leaves in the element [file] points to. *)
Definition patchFile (b : body) (f : MediaRecord) : MediaRecord :=
  let f1 := match body_name b with
            | Some v => if truthy v then set_name v f else f
            | None => f
            end in
  let f2 := match body_platformId b with
            | Some v => set_platformId v f1
            | None => f1
            end in
  match body_isThumbnail b with
  | Some t => set_isThumbnail (truthy t && truthy_opt (body_platformId b)) f2
  | None => f2
  end.

(** What the handler leaves in any other element. *)
Definition sweep (i : string) (b : body) (g : MediaRecord) : MediaRecord :=
  match body_isThumbnail b, body_platformId b with
  | Some t, Some pid => if truthy t && truthy pid then clearOther pid i g else g
  | _, _ => g
  end.

(** ** Thumbnail exclusivity *)

(** The number of records of platform [P] flagged as thumbnail. *)
Definition thumbnails (P : jsval) (mf : list MediaRecord) : nat :=
  length (filter (λ g, platformId g = P ∧ isThumbnail g = true) mf).

(** Thumbnail exclusivity: two flagged records of one non-null platform
    are the same element of the index. *)
Definition exclusive (mf : list MediaRecord) : Prop :=
  ∀ j1 j2 g1 g2,
    mf !! j1 = Some g1 → mf !! j2 = Some g2 →
    platformId g1 ≠ JNull → platformId g1 = platformId g2 →
    isThumbnail g1 = true → isThumbnail g2 = true → j1 = j2.

(** ** Reading the stores *)

(** The name of an entry of UPLOAD_PATH. *)
Definition entryName (e : Local.fsnode) : string :=
  match e with
  | Local.File n _ => n
  | Local.Dir n _ => n
  end.

(** The objects [getTotalSize] lists. *)
Definition listing (w : Bucket.world) : list Bucket.object :=
  filter (λ o, String.prefix "media/" (Bucket.oname o) = true) (Bucket.objects w).

(** The files whose metadata is read before the first failing request,
    when the reads start at request number [c]. *)
Fixpoint readable (out : nat → bool) (c : nat) (files : list Bucket.object)
  : list Bucket.object :=
  match files with
  | [] => []
  | f :: rest => if out c then [] else f :: readable out (S c) rest
  end.

Definition totalOf (files : list Bucket.object) : Z :=
  foldr (λ f acc, Bucket.osize f + acc) 0 files.

(** Whether the characters of [sep] occur in [s] as a block. *)
Definition occursIn (sep s : string) : bool :=
  bool_decide
    (Exists (λ k, list_ascii_of_string sep `prefix_of` drop k (list_ascii_of_string s))
       (seq 0 (S (length (list_ascii_of_string s))))).

#[global] Instance object_eq_dec : EqDecision Bucket.object.
Proof. solve_decision. Defined.

(** Two worlds that differ in the request counter only. *)
Definition sameStore (w w' : Bucket.world) : Prop :=
  Bucket.objects w' = Bucket.objects w
  ∧ Bucket.outage w' = Bucket.outage w
  ∧ Bucket.linkOf w' = Bucket.linkOf w
  ∧ Bucket.mediaFiles w' = Bucket.mediaFiles w.

(** ** Sample data *)

Definition MiB : Z := 1024 * 1024.

Definition clipA : MediaRecord :=
  mkMedia "a" (JStr "take-off") "video/mp4" "/uploads/a.mp4" JNull false.

Definition clipB : MediaRecord :=
  mkMedia "b" (JStr "landing") "video/mp4" "/uploads/b.mp4" (JStr "P1") true.

Definition clipC : MediaRecord :=
  mkMedia "c" (JStr "hangar") "image/png" "/uploads/c.png" (JStr "P1") false.

Definition clipD : MediaRecord :=
  mkMedia "d" (JStr "rotor") "image/png" "/uploads/d.png" (JStr "P2") true.

Definition onlyThumbnail (t : bool) : body := mkBody None None (Some (JBool t)).

Definition thumbnailOf (p : string) : body :=
  mkBody None (Some (JStr p)) (Some (JBool true)).

Definition asThumbnailOf (p : string) : body :=
  mkBody None (Some (JStr p)) (Some (JStr "true")).

Definition photo (sz : Z) : upload := mkUpload "shot.png" "image/png" sz.

Definition textNote : upload := mkUpload "notes.txt" "text/plain" 12.

Definition emptyDisk : Local.world := Local.mkWorld [] [].

(** Four earlier uploads of 100 MiB each under UPLOAD_PATH. *)
Definition nearlyFull : Local.world :=
  Local.mkWorld
    [Local.File "k1.mp4" (100 * MiB); Local.File "k2.mp4" (100 * MiB);
     Local.File "k3.mp4" (100 * MiB); Local.File "k4.mp4" (100 * MiB)] [].

Definition oneClip : Local.world :=
  Local.mkWorld [Local.File "a.mp4" 2048] [clipA].

Definition idleBucket : Bucket.world :=
  Bucket.mkWorld [] (λ _, false) (λ n, "https://storage.example/" ++ n) 0 [].

Definition footage (n : string) (sz : Z) : Bucket.object :=
  Bucket.mkObject n sz "video/mp4" ("https://storage.example/" ++ n).

(** Five stored clips of 96 MiB each: 480 MiB. *)
Definition stored : list Bucket.object :=
  [footage "media/k1.mp4" (96 * MiB); footage "media/k2.mp4" (96 * MiB);
   footage "media/k3.mp4" (96 * MiB); footage "media/k4.mp4" (96 * MiB);
   footage "media/k5.mp4" (96 * MiB)].

(** The bucket answering every request, ... *)
Definition healthy : Bucket.world :=
  Bucket.mkWorld stored (λ _, false) (λ n, "https://storage.example/" ++ n) 0 [].

(** ... answering none, ... *)
Definition unreachable : Bucket.world :=
  Bucket.mkWorld stored (λ _, true) (λ n, "https://storage.example/" ++ n) 0 [].

(** ... and failing at its third request only. *)
Definition flaky : Bucket.world :=
  Bucket.mkWorld stored (λ n, bool_decide (n = 2%nat))
    (λ n, "https://storage.example/" ++ n) 0 [].

(** Identifiers for the records of a listing: a, b, c, ... *)
Definition letters (n : nat) : string :=
  String (ascii_of_nat (97 + n)) EmptyString.

(** The answering bucket after a GET of the firebase-admin server. *)
Definition cataloged : Bucket.world := (Firebase.listMedia letters healthy).2.

(** The answering bucket after a GET of the Cloud Functions server. *)
Definition catalogedFn : Bucket.world := (CloudFn.listMedia letters healthy).2.

(** A record of the local-disk server in the index of a cloud server. *)
Definition stray : Bucket.world :=
  Bucket.mkWorld stored (λ _, false) (λ n, "https://storage.example/" ++ n) 0
    [clipA].

(** * Properties *)

(** ** Path and string helpers on sample inputs *)

Example basename_upload : basename "/uploads/3f2a.png" = "3f2a.png".
Proof. reflexivity. Qed.

Example basename_trailing : basename "/a/b//" = "b".
Proof. reflexivity. Qed.

Example extname_png : extname "holiday.photo.png" = ".png".
Proof. reflexivity. Qed.

Example extname_hidden : extname "dir/.bashrc" = "".
Proof. reflexivity. Qed.

Example extname_none : extname "a.b/README" = "".
Proof. reflexivity. Qed.

Example split_url :
  split "bkt/" "https://host/bkt/media/a.png?alt=media"
  = ["https://host/"; "media/a.png?alt=media"].
Proof. reflexivity. Qed.

Example split_absent : split "bkt/" "/uploads/a.png" = ["/uploads/a.png"].
Proof. reflexivity. Qed.

(** ** Values *)

Lemma strict_eq_true (a b : jsval) : strict_eq a b = true ↔ a = b.
Proof.
  destruct a, b; simpl; split; intros H; try discriminate; try reflexivity.
  - apply Bool.eqb_prop in H. by subst.
  - inversion H. apply Bool.eqb_reflx.
  - apply Z.eqb_eq in H. by subst.
  - inversion H. apply Z.eqb_refl.
  - apply String.eqb_eq in H. by subst.
  - inversion H. apply String.eqb_refl.
Qed.

Lemma truthy_JStr (s : string) : truthy (JStr s) = true ↔ s ≠ "".
Proof.
  simpl. rewrite Bool.negb_true_iff. split.
  - intros H ->. discriminate.
  - intros H. apply String.eqb_neq. exact H.
Qed.

Lemma truthy_not_null (v : jsval) : truthy v = true → v ≠ JNull.
Proof. intros H ->. discriminate. Qed.

(** ** The PUT handler, element by element *)

Lemma clearOther_target pid i f : id f = i → clearOther pid i f = f.
Proof.
  intros <-. unfold clearOther. rewrite String.eqb_refl.
  by rewrite andb_false_r.
Qed.

Lemma lookup_assignName b k mf j :
  assignName b k mf !! j
  = if decide (j = k)
    then (λ f, match body_name b with
               | Some v => if truthy v then set_name v f else f
               | None => f
               end) <$> mf !! j
    else mf !! j.
Proof.
  unfold assignName. destruct (body_name b) as [v|]; [destruct (truthy v)|].
  - case_decide; subst.
    + by rewrite list_lookup_alter_eq.
    + by rewrite list_lookup_alter_ne.
  - case_decide; [by destruct (mf !! j)|done].
  - case_decide; [by destruct (mf !! j)|done].
Qed.

Lemma lookup_assignPlatformId b k mf j :
  assignPlatformId b k mf !! j
  = if decide (j = k)
    then (λ f, match body_platformId b with
               | Some v => set_platformId v f
               | None => f
               end) <$> mf !! j
    else mf !! j.
Proof.
  unfold assignPlatformId. destruct (body_platformId b) as [v|].
  - case_decide; subst.
    + by rewrite list_lookup_alter_eq.
    + by rewrite list_lookup_alter_ne.
  - case_decide; [by destruct (mf !! j)|done].
Qed.

Lemma lookup_assignIsThumbnail i b k mf j :
  assignIsThumbnail i b k mf !! j
  = if decide (j = k)
    then (λ f, match body_isThumbnail b with
               | Some t =>
                   set_isThumbnail (truthy t && truthy_opt (body_platformId b))
                     (sweep i b f)
               | None => f
               end) <$> mf !! j
    else sweep i b <$> mf !! j.
Proof.
  unfold assignIsThumbnail, sweep.
  destruct (body_isThumbnail b) as [t|]; [destruct (body_platformId b) as [pid|]|];
    simpl.
  - destruct (truthy t && truthy pid) eqn:E.
    + case_decide; subst.
      * rewrite list_lookup_alter_eq, list_lookup_fmap. by destruct (mf !! k).
      * by rewrite list_lookup_alter_ne, list_lookup_fmap.
    + case_decide; subst.
      * by rewrite list_lookup_alter_eq.
      * rewrite list_lookup_alter_ne by done. by destruct (mf !! j).
  - rewrite andb_false_r. case_decide; subst.
    + by rewrite list_lookup_alter_eq.
    + rewrite list_lookup_alter_ne by done. by destruct (mf !! j).
  - case_decide; by destruct (mf !! j).
Qed.

Lemma sweep_target i b f : id f = i → sweep i b f = f.
Proof.
  intros H. unfold sweep.
  destruct (body_isThumbnail b) as [t|]; [|done].
  destruct (body_platformId b) as [pid|]; [|done].
  destruct (truthy t && truthy pid); [|done].
  by apply clearOther_target.
Qed.

(** The handler on an index that holds the identifier: the reply is the
    patched element, which sits at the place of the old one, and every
    other element went through the [forEach] at most. *)
Lemma updateMedia_found i b mf k f :
  list_find (λ f, id f = i) mf = Some (k, f) →
  updateMedia i b mf = (ReplyJson (patchFile b f), (updateMedia i b mf).2)
  ∧ ∀ j, (updateMedia i b mf).2 !! j
         = if decide (j = k) then Some (patchFile b f) else sweep i b <$> mf !! j.
Proof.
  intros Hfind. pose proof Hfind as Hf.
  apply list_find_Some in Hf as (Hk & Hid & _).
  assert (Hlook : ∀ j,
    assignIsThumbnail i b k (assignPlatformId b k (assignName b k mf)) !! j
    = if decide (j = k) then Some (patchFile b f) else sweep i b <$> mf !! j).
  { intros j. rewrite lookup_assignIsThumbnail, lookup_assignPlatformId,
      lookup_assignName.
    case_decide; [|done]. subst j. rewrite Hk. simpl. f_equal.
    unfold patchFile.
    destruct (body_isThumbnail b) as [t|]; [|done].
    f_equal. apply sweep_target.
    destruct (body_platformId b), (body_name b) as [v|]; try destruct (truthy v);
      done. }
  unfold updateMedia. rewrite Hfind. simpl.
  pose proof (Hlook k) as Hkk. rewrite decide_True in Hkk by done.
  rewrite Hkk. simpl. split; [done|exact Hlook].
Qed.

Lemma updateMedia_missing i b mf :
  list_find (λ f, id f = i) mf = None →
  updateMedia i b mf = (FileNotFound, mf).
Proof. intros H. unfold updateMedia. by rewrite H. Qed.

Lemma clearOther_fields pid i g :
  id (clearOther pid i g) = id g ∧ name (clearOther pid i g) = name g
  ∧ type (clearOther pid i g) = type g ∧ url (clearOther pid i g) = url g
  ∧ platformId (clearOther pid i g) = platformId g.
Proof. unfold clearOther. by destruct (_ && _). Qed.

Lemma sweep_fields i b g :
  id (sweep i b g) = id g ∧ name (sweep i b g) = name g
  ∧ type (sweep i b g) = type g ∧ url (sweep i b g) = url g
  ∧ platformId (sweep i b g) = platformId g.
Proof.
  unfold sweep. destruct (body_isThumbnail b); [|done].
  destruct (body_platformId b); [|done].
  destruct (_ && _); [|done]. apply clearOther_fields.
Qed.

Lemma patchFile_fields b f :
  id (patchFile b f) = id f ∧ type (patchFile b f) = type f
  ∧ url (patchFile b f) = url f.
Proof.
  unfold patchFile.
  destruct (body_isThumbnail b), (body_platformId b), (body_name b) as [v|];
    try destruct (truthy v); done.
Qed.

Lemma updateMedia_length i b mf : length (updateMedia i b mf).2 = length mf.
Proof.
  unfold updateMedia. destruct (list_find _ mf) as [[k f]|]; [|done].
  assert (length (assignIsThumbnail i b k (assignPlatformId b k (assignName b k mf)))
          = length mf) as Hlen.
  { unfold assignIsThumbnail, assignPlatformId, assignName.
    repeat match goal with
           | |- context [match ?x with _ => _ end] => destruct x
           end;
      rewrite ?length_alter, ?length_fmap, ?length_alter; done. }
  by destruct (_ !! k).
Qed.

(** A [find] by identifier lands on the same place in any index that
    carries the same identifiers at the same places. *)
Lemma list_find_same_ids (i : string) (mf mf' : list MediaRecord) k f :
  list_find (λ f, id f = i) mf = Some (k, f) →
  (∀ j, id <$> mf' !! j = id <$> mf !! j) →
  ∃ f', list_find (λ f, id f = i) mf' = Some (k, f') ∧ mf' !! k = Some f'.
Proof.
  intros Hfind Hids. apply list_find_Some in Hfind as (Hk & Hid & Hfirst).
  pose proof (Hids k) as Hk'. rewrite Hk in Hk'. simpl in Hk'.
  destruct (mf' !! k) as [f'|] eqn:E; [|done].
  exists f'. split; [|done]. apply list_find_Some. split; [done|].
  simpl in Hk'. split; [congruence|].
  intros j y Hj Hlt Hy. pose proof (Hids j) as Hjj. rewrite Hj in Hjj.
  destruct (mf !! j) as [y0|] eqn:E0; [|done].
  simpl in Hjj. apply (Hfirst j y0 E0 Hlt). congruence.
Qed.

(** ** C1: the thumbnail flag *)

(** The branch the handler takes whenever the request carries
    [isThumbnail] but no truthy [platformId]: the flag of the target is
    cleared and nothing else changes. *)
Lemma updateMedia_thumbnail_without_platform i b mf k f t :
  list_find (λ f, id f = i) mf = Some (k, f) →
  body_isThumbnail b = Some t →
  truthy_opt (body_platformId b) = false →
  (updateMedia i b mf).2 !! k = Some (patchFile b f)
  ∧ isThumbnail (patchFile b f) = false
  ∧ ∀ j, j ≠ k → (updateMedia i b mf).2 !! j = mf !! j.
Proof.
  intros Hfind Ht Hp. destruct (updateMedia_found i b mf k f Hfind) as [_ Hl].
  split; [|split].
  - rewrite Hl. by rewrite decide_True.
  - unfold patchFile. rewrite Ht, Hp, andb_false_r.
    by destruct (body_platformId b).
  - intros j Hj. rewrite Hl, decide_False by done.
    unfold sweep. rewrite Ht. destruct (body_platformId b) as [pid|].
    + simpl in Hp. rewrite Hp, andb_false_r. by destruct (mf !! j).
    + by destruct (mf !! j).
Qed.

(** C1 (as amended).  For an identifier present in the index, the PUT
    handler replies with the record it left at the place of the target.
    With [isThumbnail = true] in the request: when the request itself
    carries a truthy (non-null, non-empty) [platformId], the target gets
    that [platformId] and [isThumbnail = true], and every record with
    another identifier sharing that [platformId] has [isThumbnail =
    false]; when the resulting [platformId] of the target is null, the
    target's [isThumbnail] is set to false and no other record is
    modified.  With [isThumbnail = false] the target's flag is false. *)
Theorem updateMedia_isThumbnail (i : string) (b : body)
    (mf : list MediaRecord) (k : nat) (f : MediaRecord) :
  list_find (λ f, id f = i) mf = Some (k, f) →
  ∃ file,
    updateMedia i b mf = (ReplyJson file, (updateMedia i b mf).2)
    ∧ (updateMedia i b mf).2 !! k = Some file
    ∧ (body_isThumbnail b = Some (JBool true) →
       ∀ pid, body_platformId b = Some pid → truthy pid = true →
         platformId file = pid ∧ isThumbnail file = true
         ∧ ∀ j g, (updateMedia i b mf).2 !! j = Some g →
                  id g ≠ i → platformId g = pid → isThumbnail g = false)
    ∧ (body_isThumbnail b = Some (JBool true) → platformId file = JNull →
       isThumbnail file = false
       ∧ ∀ j, j ≠ k → (updateMedia i b mf).2 !! j = mf !! j)
    ∧ (body_isThumbnail b = Some (JBool false) → isThumbnail file = false).
Proof.
  intros Hfind. destruct (updateMedia_found i b mf k f Hfind) as [Hr Hl].
  pose proof Hfind as Hf. apply list_find_Some in Hf as (Hk & Hid & _).
  exists (patchFile b f). split; [done|]. split.
  { rewrite Hl. by rewrite decide_True. }
  split; [|split].
  - intros Ht pid Hp Hpid. unfold patchFile. rewrite Ht, Hp. simpl.
    rewrite Hpid. split; [done|]. split; [done|].
    intros j g Hj Hne Hsame. rewrite Hl in Hj.
    case_decide as Hjk.
    + inversion Hj; subst g. destruct Hne.
      by destruct (patchFile_fields b f) as (-> & _).
    + destruct (mf !! j) as [g0|] eqn:E; [|done]. inversion Hj; subst g.
      unfold sweep in *. rewrite Ht, Hp in *. simpl in *. rewrite Hpid in *.
      destruct (clearOther_fields pid i g0) as (Hi & _ & _ & _ & Hpf).
      rewrite Hi in Hne. rewrite Hpf in Hsame.
      unfold clearOther.
      assert (strict_eq (platformId g0) pid = true) as -> by by apply strict_eq_true.
      assert ((id g0 =? i)%string = false) as -> by by apply String.eqb_neq.
      done.
  - intros Ht Hnull.
    assert (truthy_opt (body_platformId b) = false) as Hp.
    { destruct (body_platformId b) as [pid|] eqn:E; [|done]. simpl.
      unfold patchFile in Hnull. rewrite Ht, E in Hnull. simpl in Hnull.
      by subst pid. }
    destruct (updateMedia_thumbnail_without_platform i b mf k f _ Hfind Ht Hp)
      as (_ & H1 & H2).
    done.
  - intros Ht. unfold patchFile. rewrite Ht. simpl.
    by destruct (body_platformId b).
Qed.

Lemma updateMedia_isThumbnail_witness :
  ∃ file,
    (updateMedia "a" (thumbnailOf "P1") [clipA; clipB; clipC]).2 !! 0%nat = Some file
    ∧ platformId file = JStr "P1" ∧ isThumbnail file = true
    ∧ ∀ j g, (updateMedia "a" (thumbnailOf "P1") [clipA; clipB; clipC]).2 !! j = Some g →
             id g ≠ "a" → platformId g = JStr "P1" → isThumbnail g = false.
Proof.
  destruct (updateMedia_isThumbnail "a" (thumbnailOf "P1") [clipA; clipB; clipC]
              0%nat clipA eq_refl) as (file & _ & Hk & Hset & _).
  exists file. split; [exact Hk|].
  exact (Hset eq_refl (JStr "P1") eq_refl eq_refl).
Defined.

(** C1 as stated fails twice.  On a record without platform the request
    [{isThumbnail: true}] leaves the flag false, where the claim says
    true; and on a record of platform P1 the same request leaves the
    flag false and the thumbnail of its sibling in place, where the
    claim says the target is set and the sibling cleared. *)
Lemma updateMedia_isThumbnail_counterexample :
  updateMedia "a" (onlyThumbnail true) [clipA; clipB]
  = (ReplyJson clipA, [clipA; clipB])
  ∧ platformId clipA = JNull ∧ isThumbnail clipA ≠ true
  ∧ updateMedia "c" (onlyThumbnail true) [clipB; clipC]
    = (ReplyJson clipC, [clipB; clipC])
  ∧ platformId clipC = platformId clipB ∧ platformId clipC ≠ JNull
  ∧ isThumbnail clipC ≠ true ∧ isThumbnail clipB = true.
Proof. repeat split; try done. Qed.

(** ** C6: what the PUT handler leaves alone *)

(** C6.  The PUT handler keeps the length of the index and, at every
    place, the [id], [type] and [url] of the record; a record that is
    neither the target nor a record sharing the target's resulting
    [platformId] is left as it was (and so is every record when the
    identifier is not found). *)
Theorem updateMedia_frame (i : string) (b : body) (mf : list MediaRecord)
    (j : nat) (g : MediaRecord) :
  mf !! j = Some g →
  length (updateMedia i b mf).2 = length mf
  ∧ ∃ g', (updateMedia i b mf).2 !! j = Some g'
      ∧ id g' = id g ∧ type g' = type g ∧ url g' = url g
      ∧ (∀ k f file,
           list_find (λ f, id f = i) mf = Some (k, f) →
           (updateMedia i b mf).2 !! k = Some file →
           j ≠ k → platformId g ≠ platformId file → g' = g)
      ∧ (list_find (λ f, id f = i) mf = None → g' = g).
Proof.
  intros Hj. split; [apply updateMedia_length|].
  destruct (list_find (λ f, id f = i) mf) as [[k f]|] eqn:Hfind.
  - destruct (updateMedia_found i b mf k f Hfind) as [_ Hl].
    pose proof Hfind as Hf. apply list_find_Some in Hf as (Hk & Hid & _).
    destruct (decide (j = k)) as [->|Hjk].
    + exists (patchFile b f). rewrite Hl, decide_True by done.
      assert (g = f) as -> by congruence.
      destruct (patchFile_fields b f) as (? & ? & ?).
      repeat split; try done. intros k' f' file Heq _ Hne. congruence.
    + exists (sweep i b g). rewrite Hl, decide_False, Hj by done.
      destruct (sweep_fields i b g) as (? & ? & ? & ? & ?).
      repeat split; try done.
      intros k' f' file Heq Hfile _ Hplat. inversion Heq; subst k' f'.
      rewrite Hl, decide_True in Hfile by done. inversion Hfile; subst file.
      unfold sweep. destruct (body_isThumbnail b) as [t|] eqn:Et; [|done].
      destruct (body_platformId b) as [pid|] eqn:Ep; [|done].
      destruct (truthy t && truthy pid) eqn:E; [|done].
      unfold clearOther.
      assert (platformId (patchFile b f) = pid) as Hpid.
      { unfold patchFile. rewrite Et, Ep. done. }
      rewrite Hpid in Hplat.
      destruct (strict_eq (platformId g) pid) eqn:Es; [|done].
      apply strict_eq_true in Es. done.
  - rewrite (updateMedia_missing i b mf Hfind). simpl. exists g.
    repeat split; done.
Qed.

Lemma updateMedia_frame_witness :
  ∃ g', (updateMedia "a" (thumbnailOf "P1") [clipA; clipB; clipD]).2 !! 2%nat = Some g'
    ∧ id g' = "d" ∧ type g' = "image/png" ∧ url g' = "/uploads/d.png"
    ∧ g' = clipD.
Proof.
  destruct (updateMedia_frame "a" (thumbnailOf "P1") [clipA; clipB; clipD]
              2%nat clipD eq_refl) as (_ & g' & Hl & Hi & Ht & Hu & Hother & _).
  exists g'. repeat split; try done.
  apply (Hother 0%nat clipA (set_isThumbnail true (set_platformId (JStr "P1") clipA)));
    done.
Defined.

(** ** C7: name and platform of the target *)

(** C7.  For an identifier present in the index: a request whose [name]
    is a non-empty string replaces the name of the target, a request
    without [name] (or with the empty string) keeps it; a request with
    a [platformId], null included, replaces the [platformId] of the
    target with that value, a request without one keeps it. *)
Theorem updateMedia_name_platformId (i : string) (b : body)
    (mf : list MediaRecord) (k : nat) (f : MediaRecord) :
  list_find (λ f, id f = i) mf = Some (k, f) →
  ∃ file,
    updateMedia i b mf = (ReplyJson file, (updateMedia i b mf).2)
    ∧ (updateMedia i b mf).2 !! k = Some file
    ∧ (∀ s, body_name b = Some (JStr s) → s ≠ "" → name file = JStr s)
    ∧ (body_name b = None ∨ body_name b = Some (JStr "") → name file = name f)
    ∧ (∀ v, body_platformId b = Some v → platformId file = v)
    ∧ (body_platformId b = None → platformId file = platformId f).
Proof.
  intros Hfind. destruct (updateMedia_found i b mf k f Hfind) as [Hr Hl].
  exists (patchFile b f). split; [done|]. split.
  { rewrite Hl. by rewrite decide_True. }
  unfold patchFile. repeat split.
  - intros s Hs Hne. rewrite Hs. apply truthy_JStr in Hne. rewrite Hne.
    by destruct (body_isThumbnail b), (body_platformId b).
  - intros [Hs|Hs]; rewrite Hs; simpl;
      by destruct (body_isThumbnail b), (body_platformId b).
  - intros v Hv. rewrite Hv. by destruct (body_isThumbnail b).
  - intros Hv. rewrite Hv.
    destruct (body_isThumbnail b), (body_name b) as [v|]; try destruct (truthy v);
      done.
Qed.

Lemma updateMedia_name_platformId_witness :
  ∃ file,
    (updateMedia "b" (mkBody (Some (JStr "approach")) (Some JNull) None)
       [clipA; clipB]).2 !! 1%nat = Some file
    ∧ name file = JStr "approach" ∧ platformId file = JNull.
Proof.
  destruct (updateMedia_name_platformId "b"
              (mkBody (Some (JStr "approach")) (Some JNull) None)
              [clipA; clipB] 1%nat clipB eq_refl)
    as (file & _ & Hk & Hname & _ & Hplat & _).
  exists file. split; [exact Hk|]. split.
  - apply (Hname "approach"); done.
  - apply (Hplat JNull); done.
Defined.

(** ** C8: clearing the flag twice *)

(** C8.  Applying the request [{isThumbnail: false}] to the index the
    same request produced gives the same reply and the same index. *)
Theorem updateMedia_unset_idempotent (i : string) (mf : list MediaRecord) :
  updateMedia i (onlyThumbnail false) (updateMedia i (onlyThumbnail false) mf).2
  = updateMedia i (onlyThumbnail false) mf.
Proof.
  set (b := onlyThumbnail false).
  destruct (list_find (λ f, id f = i) mf) as [[k f]|] eqn:Hfind.
  - destruct (updateMedia_found i b mf k f Hfind) as [Hr Hl].
    set (mf1 := (updateMedia i b mf).2) in *.
    assert (Hsweep : ∀ g, sweep i b g = g) by done.
    destruct (list_find_same_ids i mf mf1 k f Hfind) as (f' & Hfind1 & Hk1).
    { intros j. rewrite Hl. case_decide; subst.
      - apply list_find_Some in Hfind as (-> & _ & _). done.
      - destruct (mf !! j); simpl; by rewrite ?Hsweep. }
    assert (f' = patchFile b f) as ->.
    { rewrite Hl, decide_True in Hk1 by done. congruence. }
    destruct (updateMedia_found i b mf1 k _ Hfind1) as [Hr1 Hl1].
    rewrite Hr1, Hr. f_equal.
    apply list_eq. intros j. rewrite Hl1, !Hl.
    case_decide; [done|]. destruct (mf !! j); simpl; by rewrite ?Hsweep.
  - rewrite (updateMedia_missing i b mf Hfind). simpl.
    apply updateMedia_missing, Hfind.
Qed.

(** ** C2: one thumbnail per platform *)

Lemma sweep_isThumbnail i b g :
  isThumbnail (sweep i b g) = true → isThumbnail g = true.
Proof.
  unfold sweep. destruct (body_isThumbnail b); [|done].
  destruct (body_platformId b); [|done].
  destruct (_ && _); [|done]. unfold clearOther. by destruct (_ && _).
Qed.

(** What the PUT handler does achieve: a request that carries
    [isThumbnail] keeps exclusivity on an index of distinct identifiers. *)
Lemma updateMedia_keeps_exclusive i b mf :
  NoDup (id <$> mf) →
  is_Some (body_isThumbnail b) →
  exclusive mf → exclusive (updateMedia i b mf).2.
Proof.
  intros Hnd [t Ht] Hex.
  destruct (list_find (λ f, id f = i) mf) as [[k f]|] eqn:Hfind;
    [|by rewrite (updateMedia_missing i b mf Hfind)].
  destruct (updateMedia_found i b mf k f Hfind) as [_ Hl].
  pose proof Hfind as Hf. apply list_find_Some in Hf as (Hk & Hid & _).
  assert (Hcross : ∀ j g, j ≠ k → sweep i b <$> mf !! j = Some g →
            platformId (patchFile b f) = platformId g →
            isThumbnail (patchFile b f) = true → isThumbnail g = false).
  { intros j g Hjk Hg Hsame Hthumb.
    destruct (mf !! j) as [g0|] eqn:E; [|done]. inversion Hg; subst g.
    assert (id g0 ≠ i) as Hne.
    { intros Heq. apply Hjk. eapply NoDup_lookup; [exact Hnd| |].
      - rewrite list_lookup_fmap, E. done.
      - rewrite list_lookup_fmap, Hk. simpl. congruence. }
    unfold patchFile in Hsame, Hthumb. unfold sweep in *. rewrite Ht in *.
    destruct (body_platformId b) as [pid|]; simpl in *;
      [|by rewrite andb_false_r in Hthumb].
    rewrite Hthumb in *. simpl in Hsame.
    destruct (clearOther_fields pid i g0) as (_ & _ & _ & _ & Hp).
    rewrite Hp in Hsame. unfold clearOther.
    assert (strict_eq (platformId g0) pid = true) as -> by by apply strict_eq_true.
    assert ((id g0 =? i)%string = false) as -> by by apply String.eqb_neq.
    done. }
  intros j1 j2 g1 g2 H1 H2 Hnn Hsame Ht1 Ht2. rewrite Hl in H1, H2.
  destruct (decide (j1 = k)) as [->|N1], (decide (j2 = k)) as [->|N2]; [done|..].
  - inversion H1; subst g1.
    rewrite (Hcross j2 g2 N2 H2 Hsame Ht1) in Ht2. done.
  - inversion H2; subst g2.
    rewrite (Hcross j1 g1 N1 H1 (eq_sym Hsame) Ht2) in Ht1. done.
  - destruct (mf !! j1) as [a|] eqn:E1; [|done].
    destruct (mf !! j2) as [c|] eqn:E2; [|done].
    inversion H1; subst g1. inversion H2; subst g2.
    destruct (sweep_fields i b a) as (_ & _ & _ & _ & Hpa).
    destruct (sweep_fields i b c) as (_ & _ & _ & _ & Hpc).
    apply (Hex j1 j2 a c E1 E2); try congruence; by eapply sweep_isThumbnail.
Qed.

(** C2, at the input where it fails: two uploads in a row to the
    local-disk server, both for platform P1 and both with [isThumbnail]
    set to the string [true].  Both succeed, and the index, exclusive
    before, ends with two thumbnails for P1: the POST handler appends
    the record without the sweep of the PUT handler. *)
Theorem createMedia_two_thumbnails :
  let req := mkRequest (Some (photo 1024)) (asThumbnailOf "P1") in
  let w1 := (Local.createMedia "f1" "r1" req emptyDisk).2 in
  let w2 := (Local.createMedia "f2" "r2" req w1).2 in
  exclusive (Local.mediaFiles emptyDisk)
  ∧ (∃ g1, Local.createMedia "f1" "r1" req emptyDisk = (ReplyJson g1, w1))
  ∧ (∃ g2, Local.createMedia "f2" "r2" req w1 = (ReplyJson g2, w2))
  ∧ thumbnails (JStr "P1") (Local.mediaFiles w2) = 2%nat
  ∧ ¬ exclusive (Local.mediaFiles w2).
Proof.
  intros req w1 w2. split; [|split; [|split; [|split]]].
  - intros j1 j2 g1 g2 H. by destruct j1.
  - by eexists.
  - by eexists.
  - reflexivity.
  - intros Hex.
    specialize (Hex 0%nat 1%nat _ _ eq_refl eq_refl).
    simpl in Hex. discriminate Hex; done.
Qed.

(** A rebuilt index carries no thumbnail at all. *)
Lemma rebuild_no_thumbnail uuid n files w l w' :
  Forall (λ g, isThumbnail g = false) (Bucket.mediaFiles w) →
  Firebase.rebuild uuid n files w = (ReplyList l, w') →
  l = Bucket.mediaFiles w' ∧ Forall (λ g, isThumbnail g = false) l.
Proof.
  revert n w. induction files as [|f rest IH]; intros n w Hall; simpl.
  - by intros [= <- <-].
  - destruct (Bucket.getMetadata _ w) as [[metadata|e] w1] eqn:E; [|done].
    apply IH. simpl.
    assert (Bucket.mediaFiles w1 = Bucket.mediaFiles w) as ->.
    { unfold Bucket.getMetadata, Bucket.storeCall in E.
      destruct (Bucket.outage _ _); [done|].
      destruct (Bucket.findObject _ _); by inversion E. }
    apply Forall_app. split; [done|]. by apply Forall_singleton.
Qed.

Lemma listMedia_exclusive uuid w l w' :
  Firebase.listMedia uuid w = (ReplyList l, w') →
  l = Bucket.mediaFiles w' ∧ exclusive l.
Proof.
  unfold Firebase.listMedia, Bucket.getFiles, Bucket.storeCall.
  destruct (Bucket.outage _ _); [done|]. intros H.
  apply rebuild_no_thumbnail in H as [-> Hall]; [|by apply Forall_nil].
  split; [done|]. intros j1 j2 g1 g2 H1 _ _ _ Ht _.
  rewrite Forall_forall in Hall.
  rewrite (Hall g1) in Ht; [done|]. by eapply list_elem_of_lookup_2.
Qed.

(** The PUT handler misses a case of its own: a request that moves a
    flagged record to another platform without naming [isThumbnail]
    leaves two thumbnails there. *)
Example updateMedia_move_keeps_flag :
  exclusive [clipB; clipD]
  ∧ thumbnails (JStr "P1")
      (updateMedia "d" (mkBody None (Some (JStr "P1")) None) [clipB; clipD]).2
    = 2%nat.
Proof.
  split; [|reflexivity].
  intros j1 j2 g1 g2 H1 H2 _ Hsame _ _.
  destruct j1 as [|[|j1]], j2 as [|[|j2]]; simpl in *; simplify_eq; done.
Qed.

(** ** C3: the capacity check *)

(** C3, at the input where it fails: 400 MiB are stored and 60 MiB are
    uploaded to the local-disk server.  The total after the upload would
    be 460 MiB, under the ceiling, and yet the reply is the capacity
    error: the disk storage has written the upload under UPLOAD_PATH
    before the handler runs, so [getDirSize] already counts it and the
    handler adds its size a second time.  The upload is removed again
    and the index is untouched. *)
Theorem createMedia_counts_upload_twice :
  let req := mkRequest (Some (photo (60 * MiB))) (mkBody None None None) in
  Local.getDirSize (Local.disk nearlyFull) = 400 * MiB
  ∧ Local.getDirSize (Local.disk nearlyFull) + size (photo (60 * MiB))
    ≤ MAX_TOTAL_SIZE
  ∧ Local.createMedia "f1" "r1" req nearlyFull = (CapacityExceeded, nearlyFull).
Proof. repeat split. by vm_compute. Qed.

(** The general shape of the check of the local-disk server, for an
    upload that passes the middleware under a name not yet in use. *)

Lemma writeFile_fresh n sz dir :
  n ∉ entryName <$> dir →
  Local.writeFile n sz dir = Some (dir ++ [Local.File n sz])%list.
Proof.
  induction dir as [|e dir IH]; intros Hfresh; [done|].
  rewrite fmap_cons, not_elem_of_cons in Hfresh. destruct Hfresh as [Hne Hrest].
  destruct e as [m s|m es]; simpl in *;
    (destruct (String.eqb_spec m n); [done|]); by rewrite IH.
Qed.

Lemma removeEntry_fresh n sz dir :
  n ∉ entryName <$> dir →
  Local.removeEntry n (dir ++ [Local.File n sz])%list = Some dir.
Proof.
  induction dir as [|e dir IH]; intros Hfresh; simpl.
  - by rewrite String.eqb_refl.
  - rewrite fmap_cons, not_elem_of_cons in Hfresh. destruct Hfresh as [Hne Hrest].
    destruct e as [m s|m es]; simpl in *;
      (destruct (String.eqb_spec m n); [done|]); by rewrite IH.
Qed.

Lemma getDirSize_app dir n sz :
  Local.getDirSize (dir ++ [Local.File n sz])%list = Local.getDirSize dir + sz.
Proof. unfold Local.getDirSize. by rewrite foldl_app. Qed.

Lemma createMedia_local_check uuidFile uuidRec req f w :
  file req = Some f →
  fileFilter f = true →
  size f ≤ fileSizeLimit →
  Local.filename uuidFile f ∉ entryName <$> Local.disk w →
  Local.filename uuidFile f ∉ [""; "."; ".."] →
  if MAX_TOTAL_SIZE <? Local.getDirSize (Local.disk w) + size f + size f
  then Local.createMedia uuidFile uuidRec req w = (CapacityExceeded, w)
  else ∃ g, Local.createMedia uuidFile uuidRec req w
            = (ReplyJson g,
               Local.mkWorld
                 (Local.disk w ++ [Local.File (Local.filename uuidFile f) (size f)])
                 (Local.mediaFiles w ++ [g])).
Proof.
  intros Hfile Hfilter Hsize Hfresh Hname.
  unfold Local.createMedia, Local.upload_single. rewrite Hfile, Hfilter. simpl.
  assert ((fileSizeLimit <? size f) = false) as -> by (apply Z.ltb_ge; lia).
  rewrite (writeFile_fresh _ _ _ Hfresh), getDirSize_app.
  destruct (MAX_TOTAL_SIZE <? _); [|by eexists].
  unfold Local.unlink.
  assert (((Local.filename uuidFile f =? "")%string
           || (Local.filename uuidFile f =? ".")%string
           || (Local.filename uuidFile f =? "..")%string) = false) as ->.
  { rewrite !not_elem_of_cons in Hname. destruct Hname as (H1 & H2 & H3 & _).
    apply String.eqb_neq in H1, H2, H3. by rewrite H1, H2, H3. }
  rewrite (removeEntry_fresh _ _ _ Hfresh). by destruct w.
Qed.

(** The Cloud Functions server has no capacity check at all. *)
Lemma createMedia_cloudfn_no_check uuidFile uuidRec req w :
  (CloudFn.createMedia uuidFile uuidRec req w).1 ≠ CapacityExceeded.
Proof.
  unfold CloudFn.createMedia, Bucket.upload_single.
  destruct (file req) as [f|]; [|done].
  destruct (fileFilter f); [|done]. simpl.
  destruct (fileSizeLimit <? size f); [done|].
  by destruct (CloudFn.persist _ _ _ _ _) as [[g|e] w'].
Qed.

(** ** C5: the MIME allow-list *)

(** C5.  An upload whose MIME type is outside the allow-list is
    rejected by the middleware of each of the three servers, and the
    world is left exactly as it was: nothing is written under
    UPLOAD_PATH, no request reaches the bucket (its request counter
    stands still), and the index is unchanged. *)
Theorem createMedia_unsupported_type (uuidFile uuidRec : string)
    (req : request) (f : upload) (w : Local.world) (c : Bucket.world) :
  file req = Some f →
  mimetype f ∉ allowedTypes →
  Local.createMedia uuidFile uuidRec req w = (UnsupportedMediaType, w)
  ∧ Firebase.createMedia uuidFile uuidRec req c = (UnsupportedMediaType, c)
  ∧ CloudFn.createMedia uuidFile uuidRec req c = (UnsupportedMediaType, c).
Proof.
  intros Hfile Hmime.
  assert (fileFilter f = false) as Hfilter.
  { unfold fileFilter. by apply bool_decide_eq_false. }
  unfold Local.createMedia, Local.upload_single, Firebase.createMedia,
    CloudFn.createMedia, Bucket.upload_single.
  by rewrite Hfile, Hfilter.
Qed.

Lemma createMedia_unsupported_type_witness :
  Local.createMedia "f1" "r1" (mkRequest (Some textNote) (mkBody None None None))
    nearlyFull
  = (UnsupportedMediaType, nearlyFull).
Proof.
  refine (proj1 (createMedia_unsupported_type "f1" "r1"
            (mkRequest (Some textNote) (mkBody None None None)) textNote nearlyFull
            (Bucket.mkWorld [] (λ _, false) (λ n, n) 0 []) eq_refl _)).
  vm_compute. intros H. repeat (apply elem_of_cons in H as [H|H]; [discriminate|]).
  by apply elem_of_nil in H.
Defined.

(** ** C9: the flag of a created record *)

Lemma newFile_isThumbnail uuid f location b :
  isThumbnail (newFile uuid f location b) = true
  ↔ body_isThumbnail b = Some (JStr "true").
Proof.
  simpl. unfold strict_eq_opt. destruct (body_isThumbnail b) as [v|]; [|done].
  rewrite strict_eq_true. split; congruence.
Qed.

Lemma createMedia_local_record uuidFile uuidRec req w g w' :
  Local.createMedia uuidFile uuidRec req w = (ReplyJson g, w') →
  ∃ f, file req = Some f
       ∧ g = newFile uuidRec f ("/uploads/" ++ Local.filename uuidFile f)
               (req_body req)
       ∧ Local.mediaFiles w' = (Local.mediaFiles w ++ [g])%list.
Proof.
  unfold Local.createMedia, Local.upload_single.
  destruct (file req) as [f|]; [|done].
  destruct (fileFilter f); [|done]. simpl.
  destruct (fileSizeLimit <? size f); [done|].
  destruct (Local.writeFile _ _ _) as [dir|]; [|done].
  destruct (MAX_TOTAL_SIZE <? _).
  - by destruct (Local.unlink _ _).
  - intros [= <- <-]. by exists f.
Qed.

(** The firebase-admin server never gets as far as a record: the first
    statement of its [try] block raises the ReferenceError. *)
Lemma createMedia_firebase_no_record uuidFile uuidRec req w g :
  (Firebase.createMedia uuidFile uuidRec req w).1 ≠ ReplyJson g.
Proof.
  unfold Firebase.createMedia, Bucket.upload_single.
  destruct (file req) as [f|]; [|done].
  destruct (fileFilter f); [|done]. simpl.
  destruct (fileSizeLimit <? size f); [done|].
  destruct (Firebase.getTotalSize w) as [currentSize w1].
  by destruct (MAX_TOTAL_SIZE <? _).
Qed.

Lemma createMedia_cloudfn_record uuidFile uuidRec req w g w' :
  CloudFn.createMedia uuidFile uuidRec req w = (ReplyJson g, w') →
  ∃ f location, file req = Some f
    ∧ g = newFile uuidRec f location (req_body req).
Proof.
  unfold CloudFn.createMedia, Bucket.upload_single.
  destruct (file req) as [f|]; [|done].
  destruct (fileFilter f); [|done]. simpl.
  destruct (fileSizeLimit <? size f); [done|].
  destruct (CloudFn.persist _ _ _ _ _) as [[nf|e] w2] eqn:E; [|done].
  intros [= <- <-]. exists f.
  unfold CloudFn.persist, Bucket.bind in E.
  destruct (Bucket.save _ _ _ _) as [[?|?] ?]; [|done].
  destruct (Bucket.getMetadata _ _) as [[metadata|?] ?]; [|done].
  inversion E. by eexists.
Qed.

(** C9.  Whenever the POST handler of one of the servers replies with
    a created record, the record's [isThumbnail] is true exactly when
    the [isThumbnail] field of the request is the string [true]: an
    absent field, the boolean [true] and any other string give false. *)
Theorem createMedia_isThumbnail (uuidFile uuidRec : string) (req : request)
    (w w' : Local.world) (c c' : Bucket.world) (g : MediaRecord) :
  Local.createMedia uuidFile uuidRec req w = (ReplyJson g, w')
  ∨ Firebase.createMedia uuidFile uuidRec req c = (ReplyJson g, c')
  ∨ CloudFn.createMedia uuidFile uuidRec req c = (ReplyJson g, c') →
  isThumbnail g = true
  ↔ body_isThumbnail (req_body req) = Some (JStr "true").
Proof.
  intros [H|[H|H]].
  - apply createMedia_local_record in H as (f & _ & -> & _).
    apply newFile_isThumbnail.
  - exfalso. eapply createMedia_firebase_no_record. by rewrite H.
  - apply createMedia_cloudfn_record in H as (f & location & _ & ->).
    apply newFile_isThumbnail.
Qed.

Lemma createMedia_isThumbnail_witness :
  ∃ g w',
    Local.createMedia "f1" "r1"
      (mkRequest (Some (photo 1024)) (mkBody None None (Some (JBool true))))
      emptyDisk = (ReplyJson g, w')
    ∧ (isThumbnail g = true ↔ Some (JBool true) = Some (JStr "true"))
    ∧ isThumbnail g = false.
Proof.
  eexists _, _. split; [reflexivity|]. split; [|reflexivity].
  eapply (createMedia_isThumbnail "f1" "r1"
            (mkRequest (Some (photo 1024)) (mkBody None None (Some (JBool true))))
            emptyDisk _ idleBucket idleBucket).
  left. reflexivity.
Defined.

(** ** C4: a bucket failure while the usage is computed *)

Lemma readable_prefix out c files : readable out c files `prefix_of` files.
Proof.
  revert c. induction files as [|f rest IH]; intros c; simpl; [done|].
  destruct (out c); [apply prefix_nil|]. by apply prefix_cons.
Qed.

Lemma readable_all out c files :
  (∀ n, out n = false) → readable out c files = files.
Proof.
  intros Hup. revert c. induction files as [|f rest IH]; intros c; simpl; [done|].
  by rewrite Hup, IH.
Qed.

Lemma findObject_self (o : Bucket.object) (objs : list Bucket.object) :
  NoDup (Bucket.oname <$> objs) → o ∈ objs →
  Bucket.findObject (Bucket.oname o) objs = Some o.
Proof.
  intros Hnd Hin. apply list_elem_of_lookup in Hin as [j Hj].
  unfold Bucket.findObject.
  destruct (list_find _ objs) as [[k x]|] eqn:E.
  - apply list_find_Some in E as (Hk & Hname & _). simpl. f_equal.
    assert (k = j) as ->; [|congruence].
    eapply NoDup_lookup; [exact Hnd| |]; rewrite list_lookup_fmap.
    + by rewrite Hk.
    + rewrite Hj. simpl. by rewrite Hname.
  - apply list_find_None in E. rewrite Forall_forall in E.
    destruct (E o); [|done]. apply list_elem_of_lookup. by exists j.
Qed.

Lemma sumSizes_readable files total w :
  (∀ f, f ∈ files →
        Bucket.findObject (Bucket.oname f) (Bucket.objects w) = Some f) →
  (Firebase.sumSizes files total w).1
  = total + totalOf (readable (Bucket.outage w) (Bucket.clock w) files).
Proof.
  revert total w. induction files as [|f rest IH]; intros total w Hfind; simpl.
  - lia.
  - unfold Bucket.getMetadata, Bucket.storeCall.
    destruct (Bucket.outage w (Bucket.clock w)) eqn:E; simpl; [lia|].
    rewrite (Hfind f) by apply list_elem_of_here.
    rewrite IH.
    + simpl. lia.
    + intros g Hg. apply Hfind. by apply list_elem_of_further.
Qed.

Lemma getTotalSize_value w :
  NoDup (Bucket.oname <$> Bucket.objects w) →
  (Firebase.getTotalSize w).1
  = if Bucket.outage w (Bucket.clock w) then 0
    else totalOf (readable (Bucket.outage w) (S (Bucket.clock w)) (listing w)).
Proof.
  intros Hnd. unfold Firebase.getTotalSize, Bucket.getFiles, Bucket.storeCall.
  destruct (Bucket.outage w (Bucket.clock w)); [done|].
  rewrite sumSizes_readable; [done|].
  intros f Hf. apply findObject_self; [done|].
  by apply list_elem_of_filter in Hf as [_ Hf].
Qed.

(** C4 (as amended).  A failure of the bucket while the POST handler
    computes the usage is not passed on: [getTotalSize] returns the
    total of the sizes read before the failing request (zero when the
    listing itself fails, the full total when nothing fails), and the
    handler replies with the capacity error exactly when that total
    plus the size of the upload is over the ceiling.  An error raised
    after that, while the upload is persisted, is answered with the
    reply [Failed to upload file]. *)
Theorem getTotalSize_failure_suppressed (w : Bucket.world) :
  NoDup (Bucket.oname <$> Bucket.objects w) →
  (Firebase.getTotalSize w).1
  = (if Bucket.outage w (Bucket.clock w) then 0
     else totalOf (readable (Bucket.outage w) (S (Bucket.clock w)) (listing w)))
  ∧ readable (Bucket.outage w) (S (Bucket.clock w)) (listing w)
    `prefix_of` listing w
  ∧ ((∀ n, Bucket.outage w n = false) →
     (Firebase.getTotalSize w).1 = totalOf (listing w))
  ∧ ∀ uuidFile uuidRec req f,
      file req = Some f → fileFilter f = true → size f ≤ fileSizeLimit →
      ((Firebase.createMedia uuidFile uuidRec req w).1 = CapacityExceeded
       ↔ MAX_TOTAL_SIZE < (Firebase.getTotalSize w).1 + size f)
      ∧ ∀ e w2,
          Firebase.persist uuidFile uuidRec f (req_body req)
            (Firebase.getTotalSize w).2 = (Bucket.Throw e, w2) →
          (Firebase.getTotalSize w).1 + size f ≤ MAX_TOTAL_SIZE →
          Firebase.createMedia uuidFile uuidRec req w = (UploadFailed, w2).
Proof.
  intros Hnd. split; [by apply getTotalSize_value|].
  split; [apply readable_prefix|]. split.
  { intros Hup. rewrite getTotalSize_value, Hup by done.
    by rewrite readable_all. }
  intros uuidFile uuidRec req f Hfile Hfilter Hsize.
  unfold Firebase.createMedia, Bucket.upload_single.
  rewrite Hfile, Hfilter. cbn [negb].
  assert ((fileSizeLimit <? size f) = false) as -> by (apply Z.ltb_ge; lia).
  destruct (Firebase.getTotalSize w) as [currentSize w1]. cbn [fst snd]. split.
  - destruct (MAX_TOTAL_SIZE <? currentSize + size f) eqn:E.
    + apply Z.ltb_lt in E. done.
    + apply Z.ltb_ge in E. split; [|lia].
      by destruct (Firebase.persist uuidFile uuidRec f (req_body req) w1)
        as [[?|?] ?].
  - intros e w2 Hp Hle.
    assert ((MAX_TOTAL_SIZE <? currentSize + size f) = false) as ->
      by (apply Z.ltb_ge; lia).
    by rewrite Hp.
Qed.

Lemma getTotalSize_failure_suppressed_witness :
  (Firebase.getTotalSize flaky).1 = 96 * MiB
  ∧ (Firebase.createMedia "f1" "r1"
       (mkRequest (Some (photo (50 * MiB))) (mkBody None None None)) flaky).1
    ≠ CapacityExceeded.
Proof.
  assert (NoDup (Bucket.oname <$> Bucket.objects flaky)) as Hnd.
  { apply (bool_decide_unpack _). by vm_compute. }
  destruct (getTotalSize_failure_suppressed flaky Hnd) as (Htotal & _ & _ & Hgate).
  split; [rewrite Htotal; reflexivity|].
  destruct (Hgate "f1" "r1"
              (mkRequest (Some (photo (50 * MiB))) (mkBody None None None))
              (photo (50 * MiB)) eq_refl eq_refl) as [Hiff _].
  { by vm_compute. }
  intros Hrej. apply Hiff in Hrej. rewrite Htotal in Hrej.
  vm_compute in Hrej. discriminate Hrej.
Defined.

(** C4 as stated fails.  The same 480 MiB are stored in the three
    buckets and 50 MiB are uploaded.  With the bucket answering, the
    usage is 480 MiB and the reply is the capacity error.  With the
    bucket unreachable the usage is computed as zero, with the flaky one
    as 96 MiB: no failure of the usage computation reaches the caller,
    and the capacity check lets the upload through on the partial total
    (the reply is the one of the stage after the check). *)
Lemma getTotalSize_failure_counterexample :
  let req := mkRequest (Some (photo (50 * MiB))) (mkBody None None None) in
  totalOf (listing healthy) = 480 * MiB
  ∧ (Firebase.getTotalSize healthy).1 = 480 * MiB
  ∧ (Firebase.createMedia "f1" "r1" req healthy).1 = CapacityExceeded
  ∧ (Firebase.getTotalSize unreachable).1 = 0
  ∧ (Firebase.createMedia "f1" "r1" req unreachable).1 = UploadFailed
  ∧ (Firebase.getTotalSize flaky).1 = 96 * MiB
  ∧ (Firebase.createMedia "f1" "r1" req flaky).1 = UploadFailed.
Proof. repeat split. Qed.

(** ** C10: the DELETE handler removes the stored object first *)

Lemma removeEntry_shrinks n dir dir' :
  Local.removeEntry n dir = Some dir' →
  length dir = S (length dir') ∧ ∃ sz, Local.File n sz ∈ dir.
Proof.
  revert dir'. induction dir as [|e dir IH]; intros dir' H; [done|].
  destruct e as [m s|m es]; simpl in H; destruct (String.eqb_spec m n).
  - inversion H; subst. split; [done|]. exists s. apply list_elem_of_here.
  - destruct (Local.removeEntry n dir) as [d|]; [|done]. inversion H; subst.
    destruct (IH d eq_refl) as [Hlen [sz Hin]]. split; [simpl; lia|].
    exists sz. by apply list_elem_of_further.
  - done.
  - destruct (Local.removeEntry n dir) as [d|]; [|done]. inversion H; subst.
    destruct (IH d eq_refl) as [Hlen [sz Hin]]. split; [simpl; lia|].
    exists sz. by apply list_elem_of_further.
Qed.

Lemma findObject_removed n objs :
  Bucket.findObject n (filter (λ o, Bucket.oname o ≠ n) objs) = None.
Proof.
  unfold Bucket.findObject.
  destruct (list_find _ _) as [[k x]|] eqn:E; [|done].
  apply list_find_Some in E as (Hk & Hname & _).
  apply list_elem_of_lookup_2, list_elem_of_filter in Hk as [Hne _]. done.
Qed.

(** The removal step of the firebase-admin server: its outcome, and
    what it leaves of the bucket and the index. *)
Lemma firebase_removal u w :
  match Bucket.bind (Firebase.firebasePath u) Bucket.deleteObject w with
  | (Bucket.Ok _, w') =>
      ∃ p, (Firebase.firebasePath u w).1 = Bucket.Ok p
           ∧ is_Some (Bucket.findObject p (Bucket.objects w))
           ∧ Bucket.outage w (Bucket.clock w) = false
           ∧ Bucket.objects w'
             = filter (λ o, Bucket.oname o ≠ p) (Bucket.objects w)
           ∧ Bucket.mediaFiles w' = Bucket.mediaFiles w
  | (Bucket.Throw _, w') =>
      Bucket.objects w' = Bucket.objects w
      ∧ Bucket.mediaFiles w' = Bucket.mediaFiles w
  end.
Proof.
  unfold Bucket.bind, Firebase.firebasePath.
  destruct (split _ u !! 1%nat) as [rest|]; [|done].
  destruct (split "?" rest !! 0%nat) as [p|]; [|done].
  unfold Bucket.ret, Bucket.deleteObject, Bucket.storeCall.
  destruct (Bucket.outage w (Bucket.clock w)) eqn:E; [done|]. simpl.
  destruct (Bucket.findObject p (Bucket.objects w)) eqn:F; [|done].
  exists p. by rewrite F.
Qed.

Lemma deleteMedia_local (i : string) (w : Local.world) :
  match list_find (λ f, id f = i) (Local.mediaFiles w) with
  | None => Local.deleteMedia i w = (FileNotFound, w)
  | Some (k, f) =>
      match Local.unlink (basename (url f)) (Local.disk w) with
      | Some dir' =>
          Local.deleteMedia i w
          = (FileDeleted,
             Local.mkWorld dir' (filter (λ f, id f ≠ i) (Local.mediaFiles w)))
          ∧ length (Local.disk w) = S (length dir')
      | None => Local.deleteMedia i w = (DeleteFailed, w)
      end
  end.
Proof.
  unfold Local.deleteMedia.
  destruct (list_find _ _) as [[k f]|]; [|done].
  destruct (Local.unlink _ _) as [dir'|] eqn:Hu; [|done].
  split; [done|]. unfold Local.unlink in Hu.
  destruct (_ || _); [done|]. by apply removeEntry_shrinks in Hu as [? _].
Qed.

Lemma deleteMedia_firebase (i : string) (c : Bucket.world) :
  match list_find (λ f, id f = i) (Bucket.mediaFiles c) with
  | None => Firebase.deleteMedia i c = (FileNotFound, c)
  | Some (k, f) =>
      match Bucket.bind (Firebase.firebasePath (url f)) Bucket.deleteObject c with
      | (Bucket.Ok _, c') =>
          Firebase.deleteMedia i c
          = (FileDeleted,
             Bucket.setMediaFiles (delete k (Bucket.mediaFiles c')) c')
      | (Bucket.Throw _, c') => Firebase.deleteMedia i c = (DeleteFailed, c')
      end
  end.
Proof.
  unfold Firebase.deleteMedia.
  destruct (list_find _ _) as [[k f]|]; [|done].
  by destruct (Bucket.bind _ _ c) as [[[]|e] c'].
Qed.



(** * Further properties of the handlers *)

(** ** [getDirSize] *)

Lemma getDirSize_from (a : Z) (dir : list Local.fsnode) :
  foldl (λ total f, total + Local.entrySize f) a dir = a + Local.getDirSize dir.
Proof.
  unfold Local.getDirSize. revert a.
  induction dir as [|e dir IH]; intros a; simpl; [lia|].
  rewrite (IH (a + _)), (IH (0 + _)). lia.
Qed.

Lemma getDirSize_cons e dir :
  Local.getDirSize (e :: dir) = Local.entrySize e + Local.getDirSize dir.
Proof. unfold Local.getDirSize at 1. simpl. by rewrite getDirSize_from. Qed.

(** X1.  The total [getDirSize] computes does not depend on the order
    in which [readdir] lists the entries, it adds up over the parts of
    a listing, and a directory counts for the total of its entries. *)
Theorem getDirSize_total (d1 d2 : list Local.fsnode) :
  (d1 ≡ₚ d2 → Local.getDirSize d1 = Local.getDirSize d2)
  ∧ Local.getDirSize (d1 ++ d2) = Local.getDirSize d1 + Local.getDirSize d2
  ∧ ∀ n, Local.getDirSize (Local.Dir n d1 :: d2)
         = Local.getDirSize d1 + Local.getDirSize d2.
Proof.
  split; [|split].
  - induction 1 as [|e l l' _ IH|e e' l|l l' l'' _ IH1 _ IH2].
    + done.
    + by rewrite !getDirSize_cons, IH.
    + rewrite !getDirSize_cons. lia.
    + congruence.
  - unfold Local.getDirSize at 1. by rewrite foldl_app, getDirSize_from.
  - intros n. rewrite getDirSize_cons. f_equal.
    unfold Local.getDirSize. simpl. generalize 0.
    induction d1 as [|e d1 IH]; intros a; simpl; [done|]. apply IH.
Qed.

Lemma getDirSize_total_witness :
  Local.getDirSize [Local.Dir "old" [Local.File "a" 5]; Local.File "b" 7]
  = Local.getDirSize [Local.File "b" 7; Local.Dir "old" [Local.File "a" 5]].
Proof.
  apply (getDirSize_total
           [Local.Dir "old" [Local.File "a" 5]; Local.File "b" 7]
           [Local.File "b" 7; Local.Dir "old" [Local.File "a" 5]]).
  apply Permutation_swap.
Defined.

(** ** POST on the local-disk server *)

(** X2.  Whenever the local-disk server replies with a created record,
    the total under UPLOAD_PATH after the request, plus the size of the
    upload once more, is within the ceiling; the upload is among the
    stored files and the record is the last one of the index. *)
Theorem createMedia_local_within_ceiling (uuidFile uuidRec : string)
    (req : request) (w w' : Local.world) (g : MediaRecord) :
  Local.createMedia uuidFile uuidRec req w = (ReplyJson g, w') →
  ∃ f, file req = Some f
    ∧ Local.getDirSize (Local.disk w') + size f ≤ MAX_TOTAL_SIZE
    ∧ Local.File (Local.filename uuidFile f) (size f) ∈ Local.disk w'
    ∧ Local.mediaFiles w' = (Local.mediaFiles w ++ [g])%list.
Proof.
  unfold Local.createMedia, Local.upload_single.
  destruct (file req) as [f|]; [|done].
  destruct (fileFilter f); [|done]. simpl.
  destruct (fileSizeLimit <? size f); [done|].
  destruct (Local.writeFile _ _ _) as [dir|] eqn:Hw; [|done].
  destruct (MAX_TOTAL_SIZE <? _) eqn:E.
  - by destruct (Local.unlink _ _).
  - intros [= <- <-]. exists f. simpl. apply Z.ltb_ge in E.
    repeat split; try done.
    clear E. revert dir Hw.
    induction (Local.disk w) as [|e d IH]; intros dir Hw; simpl in Hw.
    + inversion Hw. apply list_elem_of_here.
    + destruct e as [m s|m es]; destruct (String.eqb_spec m (Local.filename uuidFile f)).
      * inversion Hw. apply list_elem_of_here.
      * destruct (Local.writeFile _ _ d) as [d'|]; [|done]. inversion Hw.
        apply list_elem_of_further. by apply IH.
      * done.
      * destruct (Local.writeFile _ _ d) as [d'|]; [|done]. inversion Hw.
        apply list_elem_of_further. by apply IH.
Qed.

Lemma createMedia_local_within_ceiling_witness :
  ∃ w', (Local.createMedia "f1" "r1"
           (mkRequest (Some (photo (50 * MiB))) (mkBody None None None))
           nearlyFull).2 = w'
    ∧ Local.getDirSize (Local.disk w') + 50 * MiB ≤ MAX_TOTAL_SIZE.
Proof.
  eexists. split; [reflexivity|].
  destruct (createMedia_local_within_ceiling "f1" "r1"
              (mkRequest (Some (photo (50 * MiB))) (mkBody None None None))
              nearlyFull _ _ eq_refl) as (f & Hf & Hle & _).
  inversion Hf; subst f. exact Hle.
Defined.

(** X3.  For an upload that passes the middleware under a file name not
    yet in use, the local-disk server replies with the capacity error
    exactly when the total stored before the request plus twice the
    size of the upload is over the ceiling; a rejected request leaves
    UPLOAD_PATH and the index as they were. *)
Theorem createMedia_local_rejection (uuidFile uuidRec : string)
    (req : request) (f : upload) (w : Local.world) :
  file req = Some f →
  fileFilter f = true →
  size f ≤ fileSizeLimit →
  Local.filename uuidFile f ∉ entryName <$> Local.disk w →
  Local.filename uuidFile f ∉ [""; "."; ".."] →
  ((Local.createMedia uuidFile uuidRec req w).1 = CapacityExceeded
   ↔ MAX_TOTAL_SIZE < Local.getDirSize (Local.disk w) + size f + size f)
  ∧ ((Local.createMedia uuidFile uuidRec req w).1 = CapacityExceeded →
     (Local.createMedia uuidFile uuidRec req w).2 = w).
Proof.
  intros Hfile Hfilter Hsize Hfresh Hname.
  pose proof (createMedia_local_check uuidFile uuidRec req f w
                Hfile Hfilter Hsize Hfresh Hname) as H.
  destruct (MAX_TOTAL_SIZE <? _) eqn:E.
  - rewrite H. apply Z.ltb_lt in E. done.
  - destruct H as [g ->]. apply Z.ltb_ge in E. simpl. split; [|done].
    split; [done|lia].
Qed.

Lemma createMedia_local_rejection_witness :
  (Local.createMedia "f1" "r1"
     (mkRequest (Some (photo (51 * MiB))) (mkBody None None None)) nearlyFull).1
  = CapacityExceeded.
Proof.
  apply (createMedia_local_rejection "f1" "r1"
           (mkRequest (Some (photo (51 * MiB))) (mkBody None None None))
           (photo (51 * MiB)) nearlyFull eq_refl eq_refl).
  - by vm_compute.
  - apply (bool_decide_unpack _). by vm_compute.
  - apply (bool_decide_unpack _). by vm_compute.
  - by vm_compute.
Defined.

(** ** Identifiers the index does not hold *)

Lemma list_find_id_None (i : string) (mf : list MediaRecord) :
  list_find (λ f, id f = i) mf = None ↔ i ∉ id <$> mf.
Proof.
  rewrite list_find_None, Forall_forall. split.
  - intros H Hin. apply list_elem_of_fmap in Hin as (f & -> & Hf). by apply (H f).
  - intros H f Hf Heq. apply H. apply list_elem_of_fmap. by exists f.
Qed.

(** X4.  The PUT handler replies [File not found] exactly when no
    record of the index has the identifier, and then it leaves the index
    as it was; on such an identifier the DELETE handlers of the three
    servers reply the same and leave their world as it was. *)
Theorem unknown_id_not_found (i : string) (b : body) (w : Local.world)
    (c : Bucket.world) :
  ((updateMedia i b (Local.mediaFiles w)).1 = FileNotFound
   ↔ i ∉ id <$> Local.mediaFiles w)
  ∧ (i ∉ id <$> Local.mediaFiles w →
     Local.updateMedia i b w = (FileNotFound, w)
     ∧ Local.deleteMedia i w = (FileNotFound, w))
  ∧ (i ∉ id <$> Bucket.mediaFiles c →
     Firebase.updateMedia i b c = (FileNotFound, c)
     ∧ Firebase.deleteMedia i c = (FileNotFound, c)
     ∧ CloudFn.deleteMedia i c = (FileNotFound, c)).
Proof.
  split; [|split].
  - rewrite <- list_find_id_None. split.
    + intros H. destruct (list_find _ _) as [[k f]|] eqn:E; [|done].
      destruct (updateMedia_found i b _ k f E) as [Hr _]. rewrite Hr in H. done.
    + intros H. by rewrite (updateMedia_missing i b _ H).
  - intros H. apply list_find_id_None in H.
    unfold Local.updateMedia, Local.deleteMedia.
    rewrite (updateMedia_missing i b _ H), H. by destruct w.
  - intros H. apply list_find_id_None in H.
    unfold Firebase.updateMedia, Firebase.deleteMedia, CloudFn.deleteMedia.
    rewrite (updateMedia_missing i b _ H), H. by destruct c.
Qed.

Lemma unknown_id_not_found_witness :
  Local.deleteMedia "zz" oneClip = (FileNotFound, oneClip).
Proof.
  destruct (unknown_id_not_found "zz" (onlyThumbnail true) oneClip idleBucket)
    as (_ & Hlocal & _).
  apply Hlocal. apply (bool_decide_unpack _). by vm_compute.
Defined.

(** ** Requests the PUT handler ignores *)

(** X5.  A PUT whose body has no [platformId], no [isThumbnail] and no
    truthy [name] (the empty body, an empty or null name) replies with
    the record as it is and leaves the index as it was. *)
Theorem updateMedia_nothing_to_do (i : string) (b : body)
    (mf : list MediaRecord) (k : nat) (f : MediaRecord) :
  list_find (λ f, id f = i) mf = Some (k, f) →
  truthy_opt (body_name b) = false →
  body_platformId b = None →
  body_isThumbnail b = None →
  updateMedia i b mf = (ReplyJson f, mf).
Proof.
  intros Hfind Hn Hp Ht.
  destruct (updateMedia_found i b mf k f Hfind) as [Hr Hl].
  apply list_find_Some in Hfind as (Hk & _ & _).
  assert (patchFile b f = f) as Hpatch.
  { unfold patchFile. rewrite Hp, Ht. destruct (body_name b) as [v|]; [|done].
    simpl in Hn. by rewrite Hn. }
  assert (∀ g, sweep i b g = g) as Hsweep.
  { intros g. unfold sweep. by rewrite Ht. }
  rewrite Hr, Hpatch. f_equal. apply list_eq. intros j. rewrite Hl.
  case_decide; subst; [by rewrite Hpatch|].
  destruct (mf !! j); simpl; by rewrite ?Hsweep.
Qed.

Lemma updateMedia_nothing_to_do_witness :
  updateMedia "b" (mkBody (Some (JStr "")) None None) [clipA; clipB]
  = (ReplyJson clipB, [clipA; clipB]).
Proof.
  by apply (updateMedia_nothing_to_do "b" (mkBody (Some (JStr "")) None None)
              [clipA; clipB] 1%nat clipB).
Defined.

(** ** Thumbnails after a PUT *)

Lemma filter_none {A} (P : A → Prop) `{∀ x, Decision (P x)} (l : list A) :
  (∀ y, y ∈ l → ¬ P y) → filter P l = [].
Proof.
  induction l as [|x l IH]; intros Hno; [done|].
  rewrite filter_cons_False by (apply Hno, list_elem_of_here).
  apply IH. intros y Hy. apply Hno. by apply list_elem_of_further.
Qed.

Lemma filter_only_at {A} (P : A → Prop) `{∀ x, Decision (P x)}
    (l : list A) (k : nat) (x : A) :
  l !! k = Some x → P x →
  (∀ j y, l !! j = Some y → j ≠ k → ¬ P y) →
  filter P l = [x].
Proof.
  intros Hk Hx Hothers. rewrite <- (take_drop_middle l k x Hk).
  rewrite filter_app, filter_cons_True by done.
  rewrite !filter_none; [done| |].
  - intros y Hy. apply list_elem_of_lookup in Hy as [j Hj].
    rewrite lookup_drop in Hj. apply (Hothers _ _ Hj). lia.
  - intros y Hy. apply elem_of_take in Hy as (j & Hj & Hlt).
    apply (Hothers _ _ Hj). lia.
Qed.

(** X6.  On an index of distinct identifiers, a PUT that carries a
    truthy [isThumbnail] and a truthy [platformId] leaves exactly one
    thumbnail for that platform, whatever the index held before, and an
    index that was exclusive stays exclusive. *)
Theorem updateMedia_single_thumbnail (i : string) (b : body)
    (mf : list MediaRecord) (k : nat) (f : MediaRecord) (t pid : jsval) :
  NoDup (id <$> mf) →
  list_find (λ f, id f = i) mf = Some (k, f) →
  body_isThumbnail b = Some t → truthy t = true →
  body_platformId b = Some pid → truthy pid = true →
  thumbnails pid (updateMedia i b mf).2 = 1%nat
  ∧ (exclusive mf → exclusive (updateMedia i b mf).2).
Proof.
  intros Hnd Hfind Ht Htt Hp Hpt. split;
    [|apply updateMedia_keeps_exclusive; [done|by rewrite Ht]].
  destruct (updateMedia_found i b mf k f Hfind) as [_ Hl].
  pose proof Hfind as Hf. apply list_find_Some in Hf as (Hk & Hid & _).
  unfold thumbnails.
  rewrite (filter_only_at _ _ k (patchFile b f)); [done| | |].
  - rewrite Hl. by rewrite decide_True.
  - unfold patchFile. rewrite Ht, Hp. simpl. by rewrite Htt, Hpt.
  - intros j g Hj Hjk [Hplat Hthumb]. rewrite Hl, decide_False in Hj by done.
    destruct (mf !! j) as [g0|] eqn:E; [|done]. inversion Hj; subst g.
    assert (id g0 ≠ i) as Hne.
    { intros Heq. apply Hjk. eapply NoDup_lookup; [exact Hnd| |].
      - rewrite list_lookup_fmap, E. done.
      - rewrite list_lookup_fmap, Hk. simpl. congruence. }
    unfold sweep in *. rewrite Ht, Hp, Htt, Hpt in *. simpl in *.
    destruct (clearOther_fields pid i g0) as (_ & _ & _ & _ & Hpf).
    rewrite Hpf in Hplat. unfold clearOther in Hthumb.
    assert (strict_eq (platformId g0) pid = true) as Hs by by apply strict_eq_true.
    assert ((id g0 =? i)%string = false) as Hi by by apply String.eqb_neq.
    rewrite Hs, Hi in Hthumb. done.
Qed.

Lemma updateMedia_single_thumbnail_witness :
  thumbnails (JStr "P1")
    (updateMedia "c" (thumbnailOf "P1") [clipA; clipB; clipC]).2 = 1%nat.
Proof.
  apply (updateMedia_single_thumbnail "c" (thumbnailOf "P1")
           [clipA; clipB; clipC] 2%nat clipC (JBool true) (JStr "P1"));
    try done.
  apply (bool_decide_unpack _). by vm_compute.
Defined.

(** ** What the requests to the bucket leave alone *)

Lemma sameStore_refl w : sameStore w w.
Proof. by repeat split. Qed.

Lemma sameStore_trans w1 w2 w3 :
  sameStore w1 w2 → sameStore w2 w3 → sameStore w1 w3.
Proof.
  intros (? & ? & ? & ?) (? & ? & ? & ?). repeat split; congruence.
Qed.

Lemma getMetadata_frame n w :
  sameStore w (Bucket.getMetadata n w).2
  ∧ Bucket.clock (Bucket.getMetadata n w).2 = S (Bucket.clock w).
Proof.
  unfold Bucket.getMetadata, Bucket.storeCall.
  destruct (Bucket.outage w (Bucket.clock w)); [by repeat split|].
  simpl. destruct (Bucket.findObject _ _); by repeat split.
Qed.

Lemma sumSizes_frame files total w :
  sameStore w (Firebase.sumSizes files total w).2
  ∧ (Bucket.clock w ≤ Bucket.clock (Firebase.sumSizes files total w).2
     ≤ Bucket.clock w + length files)%nat.
Proof.
  revert total w. induction files as [|f rest IH]; intros total w; simpl.
  - split; [apply sameStore_refl|lia].
  - destruct (getMetadata_frame (Bucket.oname f) w) as [Hs Hc].
    destruct (Bucket.getMetadata _ w) as [[metadata|e] w1]; simpl in *.
    + destruct (IH (total + Bucket.osize metadata) w1) as [Hs1 Hc1].
      split; [by eapply sameStore_trans|lia].
    + split; [done|lia].
Qed.

Lemma totalOf_prefix (l1 l2 : list Bucket.object) :
  Forall (λ o, 0 ≤ Bucket.osize o) l2 → l1 `prefix_of` l2 →
  0 ≤ totalOf l1 ≤ totalOf l2.
Proof.
  intros Hpos [rest ->]. apply Forall_app in Hpos as [H1 H2].
  assert (∀ l, Forall (λ o, 0 ≤ Bucket.osize o) l → 0 ≤ totalOf l) as Hnn.
  { induction 1 as [|o l Ho _ IH]; simpl; lia. }
  assert (totalOf (l1 ++ rest) = totalOf l1 + totalOf rest) as ->.
  { unfold totalOf. rewrite foldr_app.
    generalize (foldr (λ f acc, Bucket.osize f + acc) 0 rest).
    induction l1 as [|o l1 IH]; intros z; simpl; [lia|].
    apply Forall_cons in H1 as [_ H1]. rewrite IH by done. lia. }
  pose proof (Hnn l1 H1). pose proof (Hnn rest H2). lia.
Qed.

Lemma getTotalSize_frame (w : Bucket.world) :
  sameStore w (Firebase.getTotalSize w).2.
Proof.
  unfold Firebase.getTotalSize, Bucket.getFiles, Bucket.storeCall.
  destruct (Bucket.outage w (Bucket.clock w)); [by repeat split|].
  eapply sameStore_trans; [|apply sumSizes_frame]. by repeat split.
Qed.

(** X7.  [getTotalSize] changes nothing but the request counter of the
    bucket: it makes at least one request and at most one more than
    there are listed objects.  When object names are distinct and sizes
    are not negative, the usage it reports is never more than the real
    total of the listed objects, so a failure can only make the capacity
    check more permissive. *)
Theorem getTotalSize_reads_only (w : Bucket.world) :
  sameStore w (Firebase.getTotalSize w).2
  ∧ (S (Bucket.clock w) ≤ Bucket.clock (Firebase.getTotalSize w).2
     ≤ S (Bucket.clock w + length (listing w)))%nat
  ∧ (NoDup (Bucket.oname <$> Bucket.objects w) →
     Forall (λ o, 0 ≤ Bucket.osize o) (Bucket.objects w) →
     0 ≤ (Firebase.getTotalSize w).1 ≤ totalOf (listing w)).
Proof.
  split; [apply getTotalSize_frame|split].
  - unfold Firebase.getTotalSize, Bucket.getFiles, Bucket.storeCall.
    destruct (Bucket.outage w (Bucket.clock w)); simpl; [lia|].
    pose proof (sumSizes_frame (listing w) 0 (Bucket.tick w)) as [_ Hc].
    unfold listing in *. simpl in *. lia.
  - intros Hnd Hpos. rewrite getTotalSize_value by done.
    assert (Forall (λ o, 0 ≤ Bucket.osize o) (listing w)) as Hl.
    { rewrite Forall_forall in *. intros o Ho. apply Hpos.
      by apply list_elem_of_filter in Ho as [_ Ho]. }
    destruct (Bucket.outage w (Bucket.clock w)).
    + apply (totalOf_prefix [] _ Hl), prefix_nil.
    + apply (totalOf_prefix _ _ Hl), readable_prefix.
Qed.

Lemma getTotalSize_reads_only_witness :
  0 ≤ (Firebase.getTotalSize flaky).1 ≤ 480 * MiB.
Proof.
  destruct (getTotalSize_reads_only flaky) as (_ & _ & Hle).
  apply Hle.
  - apply (bool_decide_unpack _). by vm_compute.
  - apply (bool_decide_unpack _). by vm_compute.
Defined.

(** ** Uploads the middleware turns away *)

(** X8.  A request without file part is answered [No file uploaded],
    and an allowed part over the 100 MiB limit is answered by the
    middleware's size error; in both cases each of the three servers
    leaves its world as it was. *)
Theorem createMedia_turned_away (uuidFile uuidRec : string) (req : request)
    (w : Local.world) (c : Bucket.world) :
  (file req = None →
   Local.createMedia uuidFile uuidRec req w = (NoFileUploaded, w)
   ∧ Firebase.createMedia uuidFile uuidRec req c = (NoFileUploaded, c)
   ∧ CloudFn.createMedia uuidFile uuidRec req c = (NoFileUploaded, c))
  ∧ (∀ f, file req = Some f → fileFilter f = true → fileSizeLimit < size f →
     Local.createMedia uuidFile uuidRec req w = (ObjectTooLarge, w)
     ∧ Firebase.createMedia uuidFile uuidRec req c = (ObjectTooLarge, c)
     ∧ CloudFn.createMedia uuidFile uuidRec req c = (ObjectTooLarge, c)).
Proof.
  unfold Local.createMedia, Local.upload_single, Firebase.createMedia,
    CloudFn.createMedia, Bucket.upload_single.
  split.
  - intros ->. done.
  - intros f -> -> Hsize. apply Z.ltb_lt in Hsize. by rewrite Hsize.
Qed.

Lemma createMedia_turned_away_witness :
  Local.createMedia "f1" "r1"
    (mkRequest (Some (photo (101 * MiB))) (mkBody None None None)) emptyDisk
  = (ObjectTooLarge, emptyDisk)
  ∧ CloudFn.createMedia "f1" "r1" (mkRequest None (mkBody None None None))
      idleBucket
    = (NoFileUploaded, idleBucket).
Proof.
  split.
  - destruct (createMedia_turned_away "f1" "r1"
                (mkRequest (Some (photo (101 * MiB))) (mkBody None None None))
                emptyDisk idleBucket) as [_ Hbig].
    apply (Hbig (photo (101 * MiB))); by vm_compute.
  - destruct (createMedia_turned_away "f1" "r1"
                (mkRequest None (mkBody None None None))
                emptyDisk idleBucket) as [Hnone _].
    by apply Hnone.
Defined.

(** ** The index after a POST *)

Lemma save_frame n sz ct w :
  Bucket.mediaFiles (Bucket.save n sz ct w).2 = Bucket.mediaFiles w.
Proof.
  unfold Bucket.save, Bucket.storeCall. by destruct (Bucket.outage _ _).
Qed.

Lemma persist_cloudfn_frame uuidFile uuidRec f b w :
  Bucket.mediaFiles (CloudFn.persist uuidFile uuidRec f b w).2
  = Bucket.mediaFiles w.
Proof.
  unfold CloudFn.persist, Bucket.bind.
  pose proof (save_frame ("media/" ++ uuidFile ++ extname (originalname f))
                (size f) (mimetype f) w) as Hs.
  destruct (Bucket.save _ _ _ w) as [[[]|e] w1]; simpl in *; [|done].
  destruct (getMetadata_frame ("media/" ++ uuidFile ++ extname (originalname f)) w1)
    as [(_ & _ & _ & Hm) _].
  destruct (Bucket.getMetadata _ w1) as [[metadata|e] w2]; simpl in *; congruence.
Qed.

Lemma createMedia_local_index uuidFile uuidRec req w :
  (∀ g, (Local.createMedia uuidFile uuidRec req w).1 = ReplyJson g →
        Local.mediaFiles (Local.createMedia uuidFile uuidRec req w).2
        = (Local.mediaFiles w ++ [g])%list)
  ∧ ((∀ g, (Local.createMedia uuidFile uuidRec req w).1 ≠ ReplyJson g) →
     Local.mediaFiles (Local.createMedia uuidFile uuidRec req w).2
     = Local.mediaFiles w).
Proof.
  unfold Local.createMedia, Local.upload_single.
  destruct (file req) as [f|]; [|done].
  destruct (fileFilter f); [|done]. simpl.
  destruct (fileSizeLimit <? size f); [done|].
  destruct (Local.writeFile _ _ _) as [dir|]; [|done].
  destruct (MAX_TOTAL_SIZE <? _).
  - by destruct (Local.unlink _ _).
  - simpl. split; [by intros g [= <-]|]. intros H. by destruct (H _ eq_refl).
Qed.

Lemma createMedia_firebase_index uuidFile uuidRec req c :
  sameStore c (Firebase.createMedia uuidFile uuidRec req c).2.
Proof.
  unfold Firebase.createMedia, Bucket.upload_single.
  destruct (file req) as [f|]; [|apply sameStore_refl].
  destruct (fileFilter f); [|apply sameStore_refl]. simpl.
  destruct (fileSizeLimit <? size f); [apply sameStore_refl|].
  pose proof (getTotalSize_frame c) as Hs.
  destruct (Firebase.getTotalSize c) as [currentSize c1].
  by destruct (MAX_TOTAL_SIZE <? _).
Qed.

Lemma createMedia_cloudfn_index uuidFile uuidRec req c :
  (∀ g, (CloudFn.createMedia uuidFile uuidRec req c).1 = ReplyJson g →
        Bucket.mediaFiles (CloudFn.createMedia uuidFile uuidRec req c).2
        = (Bucket.mediaFiles c ++ [g])%list)
  ∧ ((∀ g, (CloudFn.createMedia uuidFile uuidRec req c).1 ≠ ReplyJson g) →
     Bucket.mediaFiles (CloudFn.createMedia uuidFile uuidRec req c).2
     = Bucket.mediaFiles c).
Proof.
  unfold CloudFn.createMedia, Bucket.upload_single.
  destruct (file req) as [f|]; [|done].
  destruct (fileFilter f); [|done]. simpl.
  destruct (fileSizeLimit <? size f); [done|].
  pose proof (persist_cloudfn_frame uuidFile uuidRec f (req_body req) c) as Hp.
  destruct (CloudFn.persist _ _ _ _ c) as [[nf|e] c1]; simpl in *.
  - rewrite Hp. split; [by intros g [= <-]|]. intros H. by destruct (H _ eq_refl).
  - done.
Qed.

(** X9.  In each of the three servers a POST changes the index in one
    way only: a reply that carries a created record has appended that
    record at the end, and any other reply (a rejection, a failed
    upload) leaves the index as it was. *)
Theorem createMedia_index_append_only (uuidFile uuidRec : string)
    (req : request) (w : Local.world) (c : Bucket.world) :
  ((∀ g, (Local.createMedia uuidFile uuidRec req w).1 = ReplyJson g →
         Local.mediaFiles (Local.createMedia uuidFile uuidRec req w).2
         = (Local.mediaFiles w ++ [g])%list)
   ∧ ((∀ g, (Local.createMedia uuidFile uuidRec req w).1 ≠ ReplyJson g) →
      Local.mediaFiles (Local.createMedia uuidFile uuidRec req w).2
      = Local.mediaFiles w))
  ∧ ((∀ g, (CloudFn.createMedia uuidFile uuidRec req c).1 = ReplyJson g →
         Bucket.mediaFiles (CloudFn.createMedia uuidFile uuidRec req c).2
         = (Bucket.mediaFiles c ++ [g])%list)
     ∧ ((∀ g, (CloudFn.createMedia uuidFile uuidRec req c).1 ≠ ReplyJson g) →
        Bucket.mediaFiles (CloudFn.createMedia uuidFile uuidRec req c).2
        = Bucket.mediaFiles c))
  ∧ Bucket.mediaFiles (Firebase.createMedia uuidFile uuidRec req c).2
    = Bucket.mediaFiles c.
Proof.
  split; [apply createMedia_local_index|].
  split; [apply createMedia_cloudfn_index|].
  by destruct (createMedia_firebase_index uuidFile uuidRec req c) as (_ & _ & _ & ?).
Qed.

Lemma createMedia_index_append_only_witness :
  Local.mediaFiles
    (Local.createMedia "f1" "r1"
       (mkRequest (Some (photo (60 * MiB))) (mkBody None None None)) nearlyFull).2
  = [].
Proof.
  destruct (createMedia_index_append_only "f1" "r1"
              (mkRequest (Some (photo (60 * MiB))) (mkBody None None None))
              nearlyFull idleBucket) as [[_ Hkeep] _].
  apply Hkeep. intros g. by vm_compute.
Defined.

(** ** POST on the firebase-admin server *)

(** X10.  The POST handler of the firebase-admin server never replies
    with a record and never changes the bucket or the index: an upload
    that passes the middleware gets the capacity error or, through the
    ReferenceError of the unbound name [path], the reply [Failed to
    upload file]. *)
Theorem createMedia_firebase_stores_nothing (uuidFile uuidRec : string)
    (req : request) (c : Bucket.world) :
  (∀ g, (Firebase.createMedia uuidFile uuidRec req c).1 ≠ ReplyJson g)
  ∧ Bucket.objects (Firebase.createMedia uuidFile uuidRec req c).2
    = Bucket.objects c
  ∧ Bucket.mediaFiles (Firebase.createMedia uuidFile uuidRec req c).2
    = Bucket.mediaFiles c
  ∧ (∀ f, file req = Some f → fileFilter f = true → size f ≤ fileSizeLimit →
     (Firebase.createMedia uuidFile uuidRec req c).1 = CapacityExceeded
     ∨ (Firebase.createMedia uuidFile uuidRec req c).1 = UploadFailed).
Proof.
  split; [intros g; apply createMedia_firebase_no_record|].
  destruct (createMedia_firebase_index uuidFile uuidRec req c) as (Ho & _ & _ & Hm).
  split; [done|]. split; [done|].
  intros f Hfile Hfilter Hsize.
  unfold Firebase.createMedia, Bucket.upload_single. rewrite Hfile, Hfilter. simpl.
  assert ((fileSizeLimit <? size f) = false) as -> by (apply Z.ltb_ge; lia).
  destruct (Firebase.getTotalSize c) as [currentSize c1].
  destruct (MAX_TOTAL_SIZE <? _); [by left|by right].
Qed.

Lemma createMedia_firebase_stores_nothing_witness :
  (Firebase.createMedia "f1" "r1"
     (mkRequest (Some (photo 1024)) (mkBody None None None)) idleBucket).1
  = UploadFailed.
Proof.
  destruct (createMedia_firebase_stores_nothing "f1" "r1"
              (mkRequest (Some (photo 1024)) (mkBody None None None)) idleBucket)
    as (_ & _ & _ & Hreply).
  destruct (Hreply (photo 1024)) as [H|H]; try done.
Defined.

(** ** The index after a DELETE *)

(** X11.  After the local-disk server has replied [File deleted], no
    record of the index has the identifier any more (every record that
    had it is gone, duplicates included), the other records are kept in
    their order, the listing shows that index, and deleting the same
    identifier again replies [File not found]. *)
Theorem deleteMedia_local_gone (i : string) (w w1 : Local.world) :
  Local.deleteMedia i w = (FileDeleted, w1) →
  Local.mediaFiles w1 = filter (λ f, id f ≠ i) (Local.mediaFiles w)
  ∧ (i ∉ id <$> Local.mediaFiles w1)
  ∧ Local.listMedia w1 = (ReplyList (Local.mediaFiles w1), w1)
  ∧ Local.deleteMedia i w1 = (FileNotFound, w1).
Proof.
  intros H. pose proof (deleteMedia_local i w) as HL.
  destruct (list_find _ (Local.mediaFiles w)) as [[k f]|]; [|by rewrite HL in H].
  destruct (Local.unlink _ _) as [dir'|]; [|by rewrite HL in H].
  destruct HL as [HL _]. rewrite HL in H. inversion H; subst w1. simpl.
  assert (i ∉ id <$> filter (λ f, id f ≠ i) (Local.mediaFiles w)) as Hgone.
  { intros Hin. apply list_elem_of_fmap in Hin as (g & -> & Hg).
    by apply list_elem_of_filter in Hg as [Hne _]. }
  repeat split; try done.
  unfold Local.deleteMedia. simpl.
  apply list_find_id_None in Hgone. by rewrite Hgone.
Qed.

Lemma deleteMedia_local_gone_witness :
  Local.deleteMedia "a" (Local.deleteMedia "a" oneClip).2
  = (FileNotFound, (Local.deleteMedia "a" oneClip).2).
Proof.
  by destruct (deleteMedia_local_gone "a" oneClip _ eq_refl) as (_ & _ & _ & H).
Defined.

(** X12.  After the firebase-admin server has replied [File deleted],
    the index is the old one without the first record that had the
    identifier, so it is one record shorter; when identifiers are
    distinct the identifier is gone and deleting it again replies
    [File not found]. *)
Theorem deleteMedia_firebase_gone (i : string) (c c1 : Bucket.world) :
  Firebase.deleteMedia i c = (FileDeleted, c1) →
  ∃ k f,
    list_find (λ f, id f = i) (Bucket.mediaFiles c) = Some (k, f)
    ∧ Bucket.mediaFiles c1 = delete k (Bucket.mediaFiles c)
    ∧ S (length (Bucket.mediaFiles c1)) = length (Bucket.mediaFiles c)
    ∧ (NoDup (id <$> Bucket.mediaFiles c) →
       (i ∉ id <$> Bucket.mediaFiles c1)
       ∧ Firebase.deleteMedia i c1 = (FileNotFound, c1)).
Proof.
  intros H. pose proof (deleteMedia_firebase i c) as HF.
  destruct (list_find _ (Bucket.mediaFiles c)) as [[k f]|] eqn:Hfind;
    [|by rewrite HF in H].
  pose proof (firebase_removal (url f) c) as Hrem.
  destruct (Bucket.bind _ _ c) as [[[]|e] c']; [|by rewrite HF in H].
  rewrite HF in H. inversion H; subst c1. simpl.
  destruct Hrem as (p & _ & _ & _ & _ & Hmf). rewrite Hmf.
  apply list_find_Some in Hfind as (Hk & Hid & _).
  exists k, f. split; [done|]. split; [done|]. split.
  { rewrite length_delete by done.
    apply lookup_lt_Some in Hk. lia. }
  intros Hnd.
  assert (i ∉ id <$> delete k (Bucket.mediaFiles c)) as Hgone.
  { intros Hin. apply list_elem_of_fmap in Hin as (g & Hg & Hin).
    apply list_elem_of_lookup in Hin as [j Hj].
    rewrite list_lookup_delete in Hj.
    assert (∃ j', j' ≠ k ∧ Bucket.mediaFiles c !! j' = Some g) as (j' & Hne & Hj').
    { case_decide; [exists j|exists (S j)]; split; try done; lia. }
    apply Hne. eapply NoDup_lookup; [exact Hnd| |]; rewrite list_lookup_fmap.
    - rewrite Hj'. simpl. by rewrite <- Hg.
    - rewrite Hk. simpl. by rewrite Hid. }
  split; [done|]. unfold Firebase.deleteMedia. simpl.
  apply list_find_id_None in Hgone. by rewrite Hgone.
Qed.

Lemma deleteMedia_firebase_gone_witness :
  length (Bucket.mediaFiles (Firebase.deleteMedia "a" cataloged).2) = 4%nat
  ∧ Firebase.deleteMedia "a" (Firebase.deleteMedia "a" cataloged).2
    = (FileNotFound, (Firebase.deleteMedia "a" cataloged).2).
Proof.
  destruct (deleteMedia_firebase_gone "a" cataloged _ eq_refl)
    as (k & f & _ & _ & Hlen & Hgone).
  split.
  - vm_compute in Hlen. by inversion Hlen.
  - apply Hgone. apply (bool_decide_unpack _). by vm_compute.
Defined.

(** ** Records whose address does not name the bucket *)

(** X13.  For a record whose [url] does not contain the bucket name
    followed by a slash, the two cloud servers part ways.  The
    firebase-admin server fails on the path expression, replies
    [Failed to delete file] and keeps the record; the Cloud Functions
    server, whose path expression is guarded, sends no request to the
    bucket, drops every record with the identifier from its index and
    replies [File deleted]. *)
Theorem deleteMedia_foreign_url (i : string) (c : Bucket.world) (k : nat)
    (f : MediaRecord) :
  list_find (λ f, id f = i) (Bucket.mediaFiles c) = Some (k, f) →
  (split (Firebase.bucketName ++ "/") (url f) !! 1%nat = None →
   Firebase.deleteMedia i c = (DeleteFailed, c))
  ∧ (split (CloudFn.bucketName ++ "/") (url f) !! 1%nat = None →
     CloudFn.deleteMedia i c
     = (FileDeleted,
        Bucket.setMediaFiles (filter (λ f, id f ≠ i) (Bucket.mediaFiles c)) c)).
Proof.
  intros Hfind. split; intros Hsplit.
  - unfold Firebase.deleteMedia, Bucket.bind, Firebase.firebasePath.
    by rewrite Hfind, Hsplit.
  - unfold CloudFn.deleteMedia, CloudFn.firebasePath.
    by rewrite Hfind, Hsplit.
Qed.

Lemma deleteMedia_foreign_url_witness :
  Firebase.deleteMedia "a" stray = (DeleteFailed, stray)
  ∧ Bucket.mediaFiles (CloudFn.deleteMedia "a" stray).2 = []
  ∧ Bucket.objects (CloudFn.deleteMedia "a" stray).2 = stored.
Proof.
  destruct (deleteMedia_foreign_url "a" stray 0%nat clipA eq_refl) as [Hf Hc].
  split; [by apply Hf|]. rewrite Hc by done. done.
Defined.

(** ** GET on the firebase-admin server *)

Lemma rebuild_readable uuid n files w :
  (∀ f, f ∈ files →
        Bucket.findObject (Bucket.oname f) (Bucket.objects w) = Some f) →
  Bucket.mediaFiles (Firebase.rebuild uuid n files w).2
  = (Bucket.mediaFiles w
     ++ imap (λ m f, Firebase.listed (uuid (n + m)%nat) f)
          (readable (Bucket.outage w) (Bucket.clock w) files))%list
  ∧ (Firebase.rebuild uuid n files w).1
    = if bool_decide (readable (Bucket.outage w) (Bucket.clock w) files = files)
      then ReplyList (Bucket.mediaFiles (Firebase.rebuild uuid n files w).2)
      else FetchFailed.
Proof.
  revert n w. induction files as [|f rest IH]; intros n w Hfind; simpl.
  - by rewrite app_nil_r.
  - unfold Bucket.getMetadata, Bucket.storeCall.
    destruct (Bucket.outage w (Bucket.clock w)) eqn:E; simpl.
    { by rewrite app_nil_r. }
    rewrite (Hfind f) by apply list_elem_of_here.
    destruct (IH (S n)
                (Bucket.setMediaFiles
                   (Bucket.mediaFiles (Bucket.tick w) ++ [Firebase.listed (uuid n) f])
                   (Bucket.tick w))) as [Hm Hr].
    { intros g Hg. apply Hfind. by apply list_elem_of_further. }
    simpl in Hm, Hr.
    change (Bucket.mediaFiles (Bucket.tick w)) with (Bucket.mediaFiles w).
    split.
    + rewrite Hm, <- app_assoc. simpl. f_equal.
      rewrite Nat.add_0_r. f_equal. apply imap_ext. intros m g _. simpl.
      by rewrite Nat.add_succ_r.
    + rewrite Hr. repeat case_bool_decide; try done; congruence.
Qed.

(** X14.  The GET handler of the firebase-admin server, on a bucket
    with distinct object names.  When the listing request fails, the
    reply is [Failed to fetch media] and the index is kept.  When it
    succeeds, the old index is discarded: the index becomes the records
    of the objects whose metadata was read before the first failing
    request, in listing order, each without platform and without
    thumbnail flag; the reply is that index when every read succeeded
    and [Failed to fetch media] otherwise, the index then being left
    partly rebuilt. *)
Theorem listMedia_firebase_rebuild (uuid : nat → string) (w : Bucket.world) :
  NoDup (Bucket.oname <$> Bucket.objects w) →
  (Bucket.outage w (Bucket.clock w) = true →
   Firebase.listMedia uuid w = (FetchFailed, Bucket.tick w))
  ∧ (Bucket.outage w (Bucket.clock w) = false →
     let read := readable (Bucket.outage w) (S (Bucket.clock w)) (listing w) in
     Bucket.mediaFiles (Firebase.listMedia uuid w).2
     = imap (λ m f, Firebase.listed (uuid m) f) read
     ∧ (Firebase.listMedia uuid w).1
       = (if bool_decide (read = listing w)
          then ReplyList (imap (λ m f, Firebase.listed (uuid m) f) (listing w))
          else FetchFailed)
     ∧ Forall (λ g, platformId g = JNull ∧ isThumbnail g = false)
         (Bucket.mediaFiles (Firebase.listMedia uuid w).2)).
Proof.
  intros Hnd. unfold Firebase.listMedia, Bucket.getFiles, Bucket.storeCall.
  split; intros E; rewrite E; [done|]. simpl.
  destruct (rebuild_readable uuid 0 (listing w)
              (Bucket.setMediaFiles [] (Bucket.tick w))) as [Hm Hr].
  { intros f Hf. simpl. apply findObject_self; [done|].
    by apply list_elem_of_filter in Hf as [_ Hf]. }
  simpl in Hm, Hr. unfold listing in *. simpl in *.
  split; [exact Hm|]. split.
  - rewrite Hr. case_bool_decide as Hall; [|done]. by rewrite Hm, Hall.
  - rewrite Hm. apply Forall_forall. intros g Hg.
    apply list_elem_of_lookup in Hg as [j Hj].
    rewrite list_lookup_imap in Hj.
    destruct (_ !! j); [|done]. by inversion Hj.
Qed.

Lemma listMedia_firebase_rebuild_witness :
  (Firebase.listMedia letters flaky).1 = FetchFailed
  ∧ length (Bucket.mediaFiles (Firebase.listMedia letters flaky).2) = 1%nat.
Proof.
  assert (NoDup (Bucket.oname <$> Bucket.objects flaky)) as Hnd.
  { apply (bool_decide_unpack _). by vm_compute. }
  destruct (listMedia_firebase_rebuild letters flaky Hnd) as [_ Hup].
  destruct (Hup eq_refl) as (Hm & Hr & _).
  split; [by rewrite Hr|by rewrite Hm].
Defined.

(** ** Strings: what [split] and [basename] return on the addresses
    the handlers build *)

Lemma chars_app (a b : string) :
  list_ascii_of_string (a ++ b)
  = (list_ascii_of_string a ++ list_ascii_of_string b)%list.
Proof. induction a as [|c a IH]; simpl; [done|]. by rewrite IH. Qed.

Lemma splitChars_pass c sep' pre t piece :
  c ∉ pre →
  splitChars (c :: sep') (pre ++ t)%list 0 piece
  = splitChars (c :: sep') t 0 (reverse pre ++ piece)%list.
Proof.
  revert piece. induction pre as [|x pre IH]; intros piece Hc; [done|].
  apply not_elem_of_cons in Hc as [Hne Hc]. simpl.
  rewrite bool_decide_eq_false_2.
  - rewrite IH by done. by rewrite reverse_cons, <- app_assoc.
  - intros Hpre. by apply prefix_cons_inv_1 in Hpre.
Qed.

Lemma splitChars_skip sep a t piece :
  splitChars sep (a ++ t)%list (length a) piece = splitChars sep t 0 piece.
Proof. induction a as [|x a IH]; [done|]. simpl. apply IH. Qed.

Lemma splitChars_hit c sep' t piece :
  splitChars (c :: sep') ((c :: sep') ++ t)%list 0 piece
  = reverse piece :: splitChars (c :: sep') t 0 [].
Proof.
  simpl. rewrite bool_decide_eq_true_2.
  - f_equal. rewrite Nat.sub_0_r. apply splitChars_skip.
  - apply prefix_cons, prefix_app_r. done.
Qed.

Lemma splitChars_none c sep' s piece :
  (∀ k, ¬ (c :: sep') `prefix_of` drop k s) →
  splitChars (c :: sep') s 0 piece = [(reverse piece ++ s)%list].
Proof.
  revert piece. induction s as [|x s IH]; intros piece Hno; simpl.
  - by rewrite app_nil_r.
  - rewrite bool_decide_eq_false_2 by apply (Hno 0%nat).
    rewrite IH.
    + by rewrite reverse_cons, <- app_assoc.
    + intros k. apply (Hno (S k)).
Qed.

Lemma prefix_cross (sep a q : list ascii) (x : ascii) :
  x ∉ sep → sep `prefix_of` (a ++ x :: q)%list → sep `prefix_of` a.
Proof.
  revert sep. induction a as [|y a IH]; intros sep Hx Hpre.
  - destruct sep as [|s sep]; [done|].
    apply prefix_cons_inv_1 in Hpre as ->.
    destruct Hx. apply list_elem_of_here.
  - destruct sep as [|s sep]; [apply prefix_nil|].
    apply not_elem_of_cons in Hx as [_ Hx]. simpl in Hpre.
    pose proof (prefix_cons_inv_1 _ _ _ _ Hpre) as ->.
    apply prefix_cons, IH; [done|]. by eapply prefix_cons_inv_2.
Qed.

Lemma occursIn_false sep s k :
  occursIn sep s = false →
  ¬ list_ascii_of_string sep `prefix_of` drop k (list_ascii_of_string s).
Proof.
  unfold occursIn. intros H Hpre. apply bool_decide_eq_false in H.
  apply H, Exists_exists.
  destruct (decide (k ≤ length (list_ascii_of_string s))%nat).
  - exists k. split; [|done]. apply elem_of_seq. lia.
  - exists (length (list_ascii_of_string s)). split; [apply elem_of_seq; lia|].
    rewrite drop_ge in Hpre by lia. by rewrite drop_all.
Qed.

(** No occurrence of [sep] in [a] nor in [x :: q], and [x] not a
    character of [sep]: no occurrence in [a ++ x :: q]. *)
Lemma no_occurrence_app (sep a q : list ascii) (x : ascii) :
  x ∉ sep →
  (∀ k, ¬ sep `prefix_of` drop k a) →
  (∀ k, ¬ sep `prefix_of` drop k (x :: q)) →
  ∀ k, ¬ sep `prefix_of` drop k (a ++ x :: q)%list.
Proof.
  intros Hx Ha Hq k Hpre.
  destruct (decide (k ≤ length a)%nat).
  - rewrite drop_app_le in Hpre by done.
    apply (Ha k). by eapply prefix_cross.
  - rewrite drop_app_ge in Hpre by lia. by apply (Hq (k - length a)%nat).
Qed.

(** The path expression of the DELETE handlers on an address of the
    form the GET handlers build, for any bucket name. *)
Lemma split_listed_url (pre bn n : string) (c : ascii) (sep' : list ascii) :
  list_ascii_of_string (bn ++ "/") = c :: sep' →
  c ∉ list_ascii_of_string pre →
  "?"%char ∉ list_ascii_of_string (bn ++ "/") →
  occursIn (bn ++ "/") "?alt=media" = false →
  occursIn (bn ++ "/") n = false →
  "?"%char ∉ list_ascii_of_string n →
  split (bn ++ "/") (pre ++ bn ++ "/" ++ n ++ "?alt=media") !! 1%nat
  = Some (n ++ "?alt=media")
  ∧ split "?" (n ++ "?alt=media") !! 0%nat = Some n.
Proof.
  intros Hsep Hc Hq Hmedia Hn Hqn. split.
  - unfold split.
    assert (list_ascii_of_string (pre ++ bn ++ "/" ++ n ++ "?alt=media")
            = (list_ascii_of_string pre
               ++ (c :: sep') ++ list_ascii_of_string (n ++ "?alt=media"))%list)
      as ->.
    { rewrite <- Hsep, !chars_app. by rewrite <- !app_assoc. }
    rewrite Hsep, splitChars_pass, splitChars_hit by done.
    rewrite splitChars_none.
    + simpl. by rewrite string_of_list_ascii_of_string.
    + rewrite chars_app. change (list_ascii_of_string "?alt=media")
        with ("?"%char :: list_ascii_of_string "alt=media").
      rewrite <- Hsep. apply no_occurrence_app; [done| |].
      * intros k. by apply occursIn_false.
      * intros k. by apply (occursIn_false (bn ++ "/") "?alt=media").
  - unfold split. rewrite chars_app.
    change (list_ascii_of_string "?") with ["?"%char].
    rewrite splitChars_pass by done.
    change (list_ascii_of_string "?alt=media")
      with (["?"%char] ++ list_ascii_of_string "alt=media")%list.
    rewrite splitChars_hit. simpl.
    by rewrite app_nil_r, reverse_involutive, string_of_list_ascii_of_string.
Qed.

(** ** A listed record can be deleted *)

Lemma firebasePath_listed (u : string) (o : Bucket.object) (w : Bucket.world) :
  occursIn (Firebase.bucketName ++ "/") (Bucket.oname o) = false →
  "?"%char ∉ list_ascii_of_string (Bucket.oname o) →
  Firebase.firebasePath (url (Firebase.listed u o)) w
  = (Bucket.Ok (Bucket.oname o), w).
Proof.
  intros Hocc Hq. unfold Firebase.firebasePath. cbn [url Firebase.listed].
  destruct (split_listed_url "https://storage.googleapis.com/"
              Firebase.bucketName (Bucket.oname o)
              "d"%char (list_ascii_of_string "rone-catalog.appspot.com/"))
    as [-> ->]; try done.
  - apply (bool_decide_unpack _). by vm_compute.
  - apply (bool_decide_unpack _). by vm_compute.
Qed.

Lemma firebasePath_cloudfn_listed (u : string) (o : Bucket.object) :
  occursIn (CloudFn.bucketName ++ "/") (Bucket.oname o) = false →
  "?"%char ∉ list_ascii_of_string (Bucket.oname o) →
  CloudFn.firebasePath (url (CloudFn.listed u o)) = Some (Bucket.oname o).
Proof.
  intros Hocc Hq. unfold CloudFn.firebasePath. cbn [url CloudFn.listed].
  destruct (split_listed_url "https://storage.googleapis.com/"
              CloudFn.bucketName (Bucket.oname o)
              "d"%char (list_ascii_of_string "rone-catalog-6d8a8.appspot.com/"))
    as [-> ->]; try done.
  - apply (bool_decide_unpack _). by vm_compute.
  - apply (bool_decide_unpack _). by vm_compute.
Qed.

(** In the firebase-admin server the DELETE handler derives the object
    name back from the address of a record the GET handler built,
    removes that object and takes the record out of the index. *)
Lemma deleteMedia_firebase_listed (i : string) (c : Bucket.world) (k : nat)
    (o : Bucket.object) :
  list_find (λ f, id f = i) (Bucket.mediaFiles c)
  = Some (k, Firebase.listed i o) →
  is_Some (Bucket.findObject (Bucket.oname o) (Bucket.objects c)) →
  occursIn (Firebase.bucketName ++ "/") (Bucket.oname o) = false →
  "?"%char ∉ list_ascii_of_string (Bucket.oname o) →
  Bucket.outage c (Bucket.clock c) = false →
  (Firebase.deleteMedia i c).1 = FileDeleted
  ∧ Bucket.objects (Firebase.deleteMedia i c).2
    = filter (λ x, Bucket.oname x ≠ Bucket.oname o) (Bucket.objects c)
  ∧ Bucket.findObject (Bucket.oname o) (Bucket.objects (Firebase.deleteMedia i c).2)
    = None
  ∧ Bucket.mediaFiles (Firebase.deleteMedia i c).2
    = delete k (Bucket.mediaFiles c).
Proof.
  intros Hfind [x Hx] Hocc Hq Hup.
  unfold Firebase.deleteMedia, Bucket.bind. rewrite Hfind.
  rewrite firebasePath_listed by done.
  unfold Bucket.deleteObject, Bucket.storeCall. rewrite Hup. simpl.
  rewrite Hx. simpl. repeat split; try done. apply findObject_removed.
Qed.

(** The same in the Cloud Functions server, for an object name that is
    not empty; every record with the identifier leaves the index. *)
Lemma deleteMedia_cloudfn_listed (i : string) (c : Bucket.world) (k : nat)
    (o : Bucket.object) :
  list_find (λ f, id f = i) (Bucket.mediaFiles c)
  = Some (k, CloudFn.listed i o) →
  is_Some (Bucket.findObject (Bucket.oname o) (Bucket.objects c)) →
  Bucket.oname o ≠ "" →
  occursIn (CloudFn.bucketName ++ "/") (Bucket.oname o) = false →
  "?"%char ∉ list_ascii_of_string (Bucket.oname o) →
  Bucket.outage c (Bucket.clock c) = false →
  (CloudFn.deleteMedia i c).1 = FileDeleted
  ∧ Bucket.objects (CloudFn.deleteMedia i c).2
    = filter (λ x, Bucket.oname x ≠ Bucket.oname o) (Bucket.objects c)
  ∧ Bucket.mediaFiles (CloudFn.deleteMedia i c).2
    = filter (λ f, id f ≠ i) (Bucket.mediaFiles c).
Proof.
  intros Hfind [x Hx] Hname Hocc Hq Hup.
  unfold CloudFn.deleteMedia. rewrite Hfind.
  rewrite firebasePath_cloudfn_listed by done.
  apply String.eqb_neq in Hname. rewrite Hname.
  unfold Bucket.deleteObject, Bucket.storeCall. rewrite Hup. simpl.
  by rewrite Hx.
Qed.

Lemma list_find_imap_listed (listed : string → Bucket.object → MediaRecord)
    (uuid : nat → string) (files : list Bucket.object) (n : nat)
    (o : Bucket.object) :
  (∀ u x, id (listed u x) = u) →
  files !! n = Some o →
  (∀ m, (m < length files)%nat → uuid m = uuid n → m = n) →
  list_find (λ f, id f = uuid n) (imap (λ m f, listed (uuid m) f) files)
  = Some (n, listed (uuid n) o).
Proof.
  intros Hid Hn Hinj. apply list_find_Some. split; [|split].
  - by rewrite list_lookup_imap, Hn.
  - apply Hid.
  - intros j y Hj Hlt Hy. rewrite list_lookup_imap in Hj.
    destruct (files !! j) eqn:E; [|done]. inversion Hj; subst y.
    rewrite Hid in Hy. apply Hinj in Hy; [lia|]. by eapply lookup_lt_Some.
Qed.

Lemma rebuild_frame uuid n files w :
  Bucket.objects (Firebase.rebuild uuid n files w).2 = Bucket.objects w
  ∧ Bucket.outage (Firebase.rebuild uuid n files w).2 = Bucket.outage w.
Proof.
  revert n w. induction files as [|f rest IH]; intros n w; simpl; [done|].
  destruct (getMetadata_frame (Bucket.oname f) w) as [(Ho & Hout & _) _].
  destruct (Bucket.getMetadata _ w) as [[metadata|e] w1]; simpl in *; [|done].
  destruct (IH (S n)
              (Bucket.setMediaFiles
                 (Bucket.mediaFiles w1 ++ [Firebase.listed (uuid n) metadata]) w1))
    as [-> ->].
  done.
Qed.

(** X15.  GET, then DELETE, on the firebase-admin server.  On a bucket
    that answers every request and has distinct object names, the GET
    handler replies with one record per listed object; for any of them
    whose object name holds no question mark and does not contain the
    bucket name followed by a slash, a DELETE of its identifier derives
    the object name back from the record's address, removes exactly
    that object from the bucket, takes the record out of the index and
    replies [File deleted]. *)
Theorem listMedia_deleteMedia_firebase (uuid : nat → string) (w : Bucket.world)
    (n : nat) (o : Bucket.object) :
  NoDup (Bucket.oname <$> Bucket.objects w) →
  (∀ m, Bucket.outage w m = false) →
  (∀ m, (m < length (listing w))%nat → uuid m = uuid n → m = n) →
  listing w !! n = Some o →
  occursIn (Firebase.bucketName ++ "/") (Bucket.oname o) = false →
  "?"%char ∉ list_ascii_of_string (Bucket.oname o) →
  let c := (Firebase.listMedia uuid w).2 in
  (Firebase.listMedia uuid w).1 = ReplyList (Bucket.mediaFiles c)
  ∧ Bucket.mediaFiles c !! n = Some (Firebase.listed (uuid n) o)
  ∧ (Firebase.deleteMedia (uuid n) c).1 = FileDeleted
  ∧ Bucket.objects (Firebase.deleteMedia (uuid n) c).2
    = filter (λ x, Bucket.oname x ≠ Bucket.oname o) (Bucket.objects w)
  ∧ Bucket.mediaFiles (Firebase.deleteMedia (uuid n) c).2
    = delete n (Bucket.mediaFiles c).
Proof.
  intros Hnd Hup Hinj Hn Hocc Hq c.
  assert (Bucket.mediaFiles (Firebase.listMedia uuid w).2
          = imap (λ m f, Firebase.listed (uuid m) f) (listing w)
          ∧ (Firebase.listMedia uuid w).1
            = ReplyList (imap (λ m f, Firebase.listed (uuid m) f) (listing w)))
    as [Hm Hr].
  { unfold Firebase.listMedia, Bucket.getFiles, Bucket.storeCall. rewrite Hup.
    destruct (rebuild_readable uuid 0 (listing w)
                (Bucket.setMediaFiles [] (Bucket.tick w))) as [Hm Hr].
    { intros f Hf. simpl. apply findObject_self; [done|].
      by apply list_elem_of_filter in Hf as [_ Hf]. }
    simpl in Hm, Hr. rewrite (readable_all _ _ _ Hup) in Hm, Hr.
    rewrite bool_decide_eq_true_2 in Hr by done.
    unfold listing in *. simpl in *. by rewrite Hr, Hm. }
  assert (Bucket.objects c = Bucket.objects w ∧ Bucket.outage c = Bucket.outage w)
    as [Hobj Hout].
  { unfold c, Firebase.listMedia, Bucket.getFiles, Bucket.storeCall.
    rewrite Hup.
    apply (rebuild_frame uuid 0 _ (Bucket.setMediaFiles [] (Bucket.tick w))). }
  fold c in Hm. split; [by rewrite Hr, Hm|].
  split; [by rewrite Hm, list_lookup_imap, Hn|].
  assert (o ∈ Bucket.objects w) as Hin.
  { apply list_elem_of_lookup_2 in Hn. by apply list_elem_of_filter in Hn as [_ ?]. }
  destruct (deleteMedia_firebase_listed (uuid n) c n o) as (H1 & H2 & _ & H4);
    try done.
  - rewrite Hm. by apply list_find_imap_listed.
  - rewrite Hobj, findObject_self; done.
  - by rewrite Hout.
  - by rewrite <- Hobj.
Qed.

Lemma listMedia_deleteMedia_firebase_witness :
  (Firebase.deleteMedia "b" cataloged).1 = FileDeleted
  ∧ Bucket.findObject "media/k2.mp4"
      (Bucket.objects (Firebase.deleteMedia "b" cataloged).2) = None.
Proof.
  assert (NoDup (Bucket.oname <$> Bucket.objects healthy)) as Hnd.
  { apply (bool_decide_unpack _). by vm_compute. }
  assert (∀ m, (m < length (listing healthy))%nat →
               letters m = letters 1 → m = 1%nat) as Hinj.
  { intros m Hlt H. do 5 (destruct m as [|m]; [done|]).
    vm_compute in Hlt. lia. }
  assert ("?"%char ∉ list_ascii_of_string "media/k2.mp4") as Hq.
  { apply (bool_decide_unpack _). by vm_compute. }
  pose proof (listMedia_deleteMedia_firebase letters healthy 1%nat
                (footage "media/k2.mp4" (96 * MiB)) Hnd (λ _, eq_refl) Hinj
                eq_refl eq_refl Hq) as (_ & _ & Hr & Ho & _).
  split; [exact Hr|]. fold cataloged in Ho.
  change "b" with (letters 1). rewrite Ho.
  apply findObject_removed.
Defined.

(** X16.  GET, then DELETE, on the Cloud Functions server.  When the
    bucket answers the listing, the GET handler replaces the index by
    one record per listed object, in listing order and without platform
    or thumbnail flag, and replies with it.  When the bucket also
    answers the next request, a DELETE of the identifier of a listed
    record whose object name holds no question mark and does not
    contain the bucket name followed by a slash removes exactly that
    object from the bucket, drops the records with that identifier from
    the index and replies [File deleted]. *)
Theorem listMedia_deleteMedia_cloudfn (uuid : nat → string) (w : Bucket.world)
    (n : nat) (o : Bucket.object) :
  Bucket.outage w (Bucket.clock w) = false →
  Bucket.outage w (S (Bucket.clock w)) = false →
  (∀ m, (m < length (listing w))%nat → uuid m = uuid n → m = n) →
  listing w !! n = Some o →
  occursIn (CloudFn.bucketName ++ "/") (Bucket.oname o) = false →
  "?"%char ∉ list_ascii_of_string (Bucket.oname o) →
  let c := (CloudFn.listMedia uuid w).2 in
  (CloudFn.listMedia uuid w).1 = ReplyList (Bucket.mediaFiles c)
  ∧ Bucket.mediaFiles c = imap (λ m f, CloudFn.listed (uuid m) f) (listing w)
  ∧ Forall (λ g, platformId g = JNull ∧ isThumbnail g = false)
      (Bucket.mediaFiles c)
  ∧ (CloudFn.deleteMedia (uuid n) c).1 = FileDeleted
  ∧ Bucket.objects (CloudFn.deleteMedia (uuid n) c).2
    = filter (λ x, Bucket.oname x ≠ Bucket.oname o) (Bucket.objects w)
  ∧ Bucket.mediaFiles (CloudFn.deleteMedia (uuid n) c).2
    = filter (λ f, id f ≠ uuid n) (Bucket.mediaFiles c).
Proof.
  intros Hup Hup' Hinj Hn Hocc Hq c.
  assert (c = Bucket.setMediaFiles
                (imap (λ m f, CloudFn.listed (uuid m) f) (listing w))
                (Bucket.tick w)
          ∧ (CloudFn.listMedia uuid w).1
            = ReplyList (imap (λ m f, CloudFn.listed (uuid m) f) (listing w)))
    as [Hc Hr].
  { unfold c, CloudFn.listMedia, Bucket.getFiles, Bucket.storeCall.
    by rewrite Hup. }
  assert (Bucket.oname o ∈ Bucket.oname <$> listing w ∧ Bucket.oname o ≠ "")
    as [Hin Hname].
  { pose proof (list_elem_of_lookup_2 _ _ _ Hn) as Ho. split.
    - apply list_elem_of_fmap. by exists o.
    - apply list_elem_of_filter in Ho as [Hpre _]. intros Heq.
      by rewrite Heq in Hpre. }
  split; [by rewrite Hr, Hc|]. split; [by rewrite Hc|]. split.
  { rewrite Hc. simpl. apply Forall_forall. intros g Hg.
    apply list_elem_of_lookup in Hg as [j Hj]. rewrite list_lookup_imap in Hj.
    destruct (_ !! j); [|done]. by inversion Hj. }
  destruct (deleteMedia_cloudfn_listed (uuid n) c n o) as (H1 & H2 & H3);
    try done.
  - rewrite Hc. simpl. by apply list_find_imap_listed.
  - rewrite Hc. simpl. unfold Bucket.findObject.
    destruct (list_find _ (Bucket.objects w)) as [[j x]|] eqn:E; [by eexists|].
    apply list_find_None in E. rewrite Forall_forall in E.
    apply list_elem_of_fmap in Hin as (x & Hx & Hxin).
    apply list_elem_of_filter in Hxin as [_ Hxin]. by destruct (E x Hxin).
  - by rewrite Hc.
  - rewrite H2. split; [done|]. split; [|done]. by rewrite Hc.
Qed.

Lemma listMedia_deleteMedia_cloudfn_witness :
  (CloudFn.deleteMedia "c" catalogedFn).1 = FileDeleted
  ∧ length (Bucket.objects (CloudFn.deleteMedia "c" catalogedFn).2) = 4%nat.
Proof.
  assert (∀ m, (m < length (listing healthy))%nat →
               letters m = letters 2 → m = 2%nat) as Hinj.
  { intros m Hlt H. do 5 (destruct m as [|m]; [done|]).
    vm_compute in Hlt. lia. }
  assert ("?"%char ∉ list_ascii_of_string "media/k3.mp4") as Hq.
  { apply (bool_decide_unpack _). by vm_compute. }
  pose proof (listMedia_deleteMedia_cloudfn letters healthy 2%nat
                (footage "media/k3.mp4" (96 * MiB)) eq_refl eq_refl Hinj
                eq_refl eq_refl Hq) as (_ & _ & _ & Hr & Ho & _).
  fold catalogedFn in Hr, Ho. split; [exact Hr|].
  change "c" with (letters 2). by rewrite Ho.
Defined.

(** ** POST, then DELETE, on the local-disk server *)

Lemma takeUntil_elem p x l : x ∈ takeUntil p l → x ∈ l ∧ p x = false.
Proof.
  induction l as [|y l IH]; simpl; [by intros ?%elem_of_nil|].
  destruct (p y) eqn:E; [by intros ?%elem_of_nil|].
  intros [->|Hin]%elem_of_cons.
  - split; [apply list_elem_of_here|done].
  - destruct (IH Hin). split; [by apply list_elem_of_further|done].
Qed.

Lemma takeUntil_app_stop p l y r :
  Forall (λ x, p x = false) l → p y = true →
  takeUntil p (l ++ y :: r)%list = l.
Proof.
  intros Hl Hy. induction Hl as [|x l Hx _ IH]; simpl; [by rewrite Hy|].
  by rewrite Hx, IH.
Qed.

Lemma isSlash_false x : x ≠ slash → isSlash x = false.
Proof. intros H. by apply Ascii.eqb_neq. Qed.

Lemma basename_uploads (n : string) :
  slash ∉ list_ascii_of_string n → n ≠ "" →
  basename ("/uploads/" ++ n) = n.
Proof.
  intros Hslash Hne. unfold basename. rewrite chars_app, reverse_app.
  assert (reverse (list_ascii_of_string "/uploads/")
          = slash :: list_ascii_of_string "sdaolpu/") as -> by reflexivity.
  assert (Forall (λ x, isSlash x = false) (reverse (list_ascii_of_string n)))
    as Hall.
  { apply Forall_forall. intros x Hx. apply isSlash_false. intros ->.
    rewrite elem_of_reverse in Hx. done. }
  destruct (reverse (list_ascii_of_string n)) as [|x l] eqn:E.
  { destruct n; [done|]. apply (f_equal length) in E.
    rewrite length_reverse in E. done. }
  set (R := list_ascii_of_string "sdaolpu/").
  pose proof (Forall_inv Hall) as Hx. simpl in Hx.
  assert (dropWhile isSlash ((x :: l) ++ slash :: R)%list
          = ((x :: l) ++ slash :: R)%list) as -> by (simpl; by rewrite Hx).
  rewrite takeUntil_app_stop by done.
  by rewrite <- E, reverse_involutive, string_of_list_ascii_of_string.
Qed.

Lemma extname_no_slash (p : string) : slash ∉ list_ascii_of_string (extname p).
Proof.
  unfold extname.
  repeat case_bool_decide; try (by intros ?%elem_of_nil).
  destruct (String.eqb _ _); [by intros ?%elem_of_nil|].
  rewrite list_ascii_of_string_of_list_ascii.
  intros [Heq|Hin]%elem_of_cons; [done|].
  rewrite elem_of_reverse in Hin. apply takeUntil_elem in Hin as [Hin _].
  rewrite elem_of_reverse in Hin. unfold basename in Hin.
  rewrite list_ascii_of_string_of_list_ascii, elem_of_reverse in Hin.
  apply takeUntil_elem in Hin as [_ Hs].
  unfold isSlash in Hs. by rewrite Ascii.eqb_refl in Hs.
Qed.

Lemma filter_all {A} (P : A → Prop) `{∀ x, Decision (P x)} (l : list A) :
  (∀ y, y ∈ l → P y) → filter P l = l.
Proof.
  induction l as [|x l IH]; intros Hall; [done|].
  rewrite filter_cons_True by (apply Hall, list_elem_of_here).
  f_equal. apply IH. intros y Hy. apply Hall. by apply list_elem_of_further.
Qed.

(** X17.  POST, then DELETE, on the local-disk server.  When the
    generated file name is not yet in use under UPLOAD_PATH, the
    generated file identifier holds no slash and does not start with a
    dot, and the generated record identifier is not yet in the index, a
    DELETE of the record a POST has created finds the uploaded file
    through the base name of the record's address, removes it, and
    leaves UPLOAD_PATH and the index exactly as they were before the
    POST. *)
Theorem createMedia_deleteMedia_local (uuidFile uuidRec : string)
    (req : request) (f : upload) (w w1 : Local.world) (g : MediaRecord)
    (c : ascii) (rest : string) :
  file req = Some f →
  uuidFile = String c rest → c ≠ dot →
  slash ∉ list_ascii_of_string uuidFile →
  Local.filename uuidFile f ∉ entryName <$> Local.disk w →
  uuidRec ∉ id <$> Local.mediaFiles w →
  Local.createMedia uuidFile uuidRec req w = (ReplyJson g, w1) →
  id g = uuidRec
  ∧ basename (url g) = Local.filename uuidFile f
  ∧ Local.deleteMedia (id g) w1 = (FileDeleted, w).
Proof.
  intros Hfile Huuid Hdot Hslash Hfresh Hid Hcreate.
  assert (slash ∉ list_ascii_of_string (Local.filename uuidFile f)) as Hns.
  { unfold Local.filename. rewrite chars_app. intros [?|?]%elem_of_app; [done|].
    by eapply extname_no_slash. }
  assert (Local.filename uuidFile f ∉ [""; "."; ".."]) as Hname.
  { unfold Local.filename. rewrite Huuid. simpl.
    intros Hin. repeat (apply elem_of_cons in Hin as [Hin|Hin]; [by inversion Hin|]).
    by apply elem_of_nil in Hin. }
  assert (Local.filename uuidFile f ≠ "") as Hne.
  { intros Heq. apply Hname. rewrite Heq. apply list_elem_of_here. }
  unfold Local.createMedia, Local.upload_single in Hcreate.
  rewrite Hfile in Hcreate.
  destruct (fileFilter f); [|done]. simpl in Hcreate.
  destruct (fileSizeLimit <? size f); [done|].
  rewrite (writeFile_fresh _ _ _ Hfresh) in Hcreate.
  destruct (MAX_TOTAL_SIZE <? _); [by destruct (Local.unlink _ _)|].
  inversion Hcreate; subst g w1. clear Hcreate.
  split; [done|]. cbn [url newFile]. rewrite (basename_uploads _ Hns Hne).
  split; [done|].
  unfold Local.deleteMedia. cbn [id newFile Local.mediaFiles Local.disk].
  apply list_find_id_None in Hid.
  rewrite (list_find_app_r _ _ _ Hid). simpl.
  rewrite decide_True by done. simpl.
  rewrite (basename_uploads _ Hns Hne). unfold Local.unlink.
  assert (((Local.filename uuidFile f =? "")%string
           || (Local.filename uuidFile f =? ".")%string
           || (Local.filename uuidFile f =? "..")%string) = false) as ->.
  { rewrite !not_elem_of_cons in Hname. destruct Hname as (H1 & H2 & H3 & _).
    apply String.eqb_neq in H1, H2, H3. by rewrite H1, H2, H3. }
  rewrite (removeEntry_fresh _ _ _ Hfresh).
  rewrite filter_app, filter_all, filter_cons_False, filter_nil, app_nil_r.
  - by destruct w.
  - simpl. by intros H.
  - intros y Hy Heq. apply list_find_id_None in Hid. apply Hid.
    apply list_elem_of_fmap. by exists y.
Qed.

Lemma createMedia_deleteMedia_local_witness :
  Local.deleteMedia "r1"
    (Local.createMedia "f1" "r1"
       (mkRequest (Some (photo 1024)) (asThumbnailOf "P1")) oneClip).2
  = (FileDeleted, oneClip).
Proof.
  assert (slash ∉ list_ascii_of_string "f1") as Hslash.
  { apply (bool_decide_unpack _). by vm_compute. }
  assert ("f1.png" ∉ entryName <$> Local.disk oneClip) as Hfresh.
  { apply (bool_decide_unpack _). by vm_compute. }
  assert ("r1" ∉ id <$> Local.mediaFiles oneClip) as Hid.
  { apply (bool_decide_unpack _). by vm_compute. }
  assert ("f"%char ≠ dot) as Hdot by done.
  pose proof (createMedia_deleteMedia_local "f1" "r1"
                (mkRequest (Some (photo 1024)) (asThumbnailOf "P1"))
                (photo 1024) oneClip
                (Local.createMedia "f1" "r1"
                   (mkRequest (Some (photo 1024)) (asThumbnailOf "P1")) oneClip).2
                (newFile "r1" (photo 1024) "/uploads/f1.png" (asThumbnailOf "P1"))
                "f"%char "1" eq_refl eq_refl Hdot Hslash Hfresh Hid eq_refl)
    as (_ & _ & Hdel).
  exact Hdel.
Defined.

(** ** POST on the Cloud Functions server *)

Lemma findObject_saved n sz ct l (objs : list Bucket.object) :
  Bucket.findObject n
    (filter (λ x, Bucket.oname x ≠ n) objs ++ [Bucket.mkObject n sz ct l])
  = Some (Bucket.mkObject n sz ct l).
Proof.
  pose proof (findObject_removed n objs) as Hnone.
  unfold Bucket.findObject in *.
  destruct (list_find _ (filter _ objs)) as [[k x]|] eqn:E; [done|].
  rewrite (list_find_app_r _ _ _ E). simpl. by rewrite decide_True.
Qed.

Lemma save_outcome n sz ct w :
  Bucket.save n sz ct w
  = if Bucket.outage w (Bucket.clock w)
    then (Bucket.Throw Bucket.StoreError, Bucket.tick w)
    else (Bucket.Ok tt,
          Bucket.setObjects
            (filter (λ x, Bucket.oname x ≠ n) (Bucket.objects w)
             ++ [Bucket.mkObject n sz ct (Bucket.linkOf w n)])
            (Bucket.tick w)).
Proof. unfold Bucket.save, Bucket.storeCall. by destruct (Bucket.outage _ _). Qed.

Lemma getMetadata_outcome n w :
  Bucket.getMetadata n w
  = if Bucket.outage w (Bucket.clock w)
    then (Bucket.Throw Bucket.StoreError, Bucket.tick w)
    else match Bucket.findObject n (Bucket.objects w) with
         | Some o => (Bucket.Ok o, Bucket.tick w)
         | None => (Bucket.Throw Bucket.StoreError, Bucket.tick w)
         end.
Proof.
  unfold Bucket.getMetadata, Bucket.storeCall.
  destruct (Bucket.outage _ _); [done|]. simpl.
  by destruct (Bucket.findObject _ _).
Qed.

(** X18.  The POST handler of the Cloud Functions server, for an upload
    that passes the middleware, whatever the bucket already holds.
    When the bucket answers the two requests of the handler, the upload
    is stored under [media/] with its size and type, replacing an
    object of the same name, and the record, whose address is the
    media link of that object, is appended to the index.  When the
    first request fails nothing changes but the request counter.  When
    only the second fails, the reply is [Failed to upload file] and the
    index is unchanged, but the object stays in the bucket. *)
Theorem createMedia_cloudfn_outcome (uuidFile uuidRec : string) (req : request)
    (f : upload) (c : Bucket.world) :
  file req = Some f → fileFilter f = true → size f ≤ fileSizeLimit →
  let n := "media/" ++ uuidFile ++ extname (originalname f) in
  let o := Bucket.mkObject n (size f) (mimetype f) (Bucket.linkOf c n) in
  let kept := filter (λ x, Bucket.oname x ≠ n) (Bucket.objects c) in
  let r := CloudFn.createMedia uuidFile uuidRec req c in
  (Bucket.outage c (Bucket.clock c) = true →
   r = (UploadFailed, Bucket.tick c))
  ∧ (Bucket.outage c (Bucket.clock c) = false →
     Bucket.outage c (S (Bucket.clock c)) = true →
     r.1 = UploadFailed
     ∧ Bucket.objects r.2 = (kept ++ [o])%list
     ∧ Bucket.mediaFiles r.2 = Bucket.mediaFiles c)
  ∧ (Bucket.outage c (Bucket.clock c) = false →
     Bucket.outage c (S (Bucket.clock c)) = false →
     r.1 = ReplyJson (newFile uuidRec f (Bucket.linkOf c n) (req_body req))
     ∧ Bucket.objects r.2 = (kept ++ [o])%list
     ∧ Bucket.mediaFiles r.2
       = (Bucket.mediaFiles c
          ++ [newFile uuidRec f (Bucket.linkOf c n) (req_body req)])%list).
Proof.
  intros Hfile Hfilter Hsize n o kept r. unfold r.
  unfold CloudFn.createMedia, Bucket.upload_single.
  rewrite Hfile, Hfilter. cbn [negb].
  assert ((fileSizeLimit <? size f) = false) as -> by (apply Z.ltb_ge; lia).
  unfold CloudFn.persist, Bucket.bind. fold n. rewrite save_outcome.
  destruct (Bucket.outage c (Bucket.clock c)); [by repeat split|].
  rewrite getMetadata_outcome.
  cbn [Bucket.outage Bucket.clock Bucket.setObjects Bucket.tick Bucket.objects].
  rewrite findObject_saved. fold o.
  split; [done|].
  destruct (Bucket.outage c (S (Bucket.clock c))); by repeat split.
Qed.

Lemma createMedia_cloudfn_outcome_witness :
  (∃ g, (CloudFn.createMedia "f1" "r1"
           (mkRequest (Some (photo (50 * MiB))) (mkBody None None None))
           healthy).1 = ReplyJson g)
  ∧ totalOf
      (Bucket.objects
         (CloudFn.createMedia "f1" "r1"
            (mkRequest (Some (photo (50 * MiB))) (mkBody None None None))
            healthy).2)
    = 530 * MiB.
Proof.
  assert (size (photo (50 * MiB)) ≤ fileSizeLimit) as Hsize by by vm_compute.
  destruct (createMedia_cloudfn_outcome "f1" "r1"
              (mkRequest (Some (photo (50 * MiB))) (mkBody None None None))
              (photo (50 * MiB)) healthy eq_refl eq_refl Hsize)
    as (_ & _ & Hok).
  destruct (Hok eq_refl eq_refl) as (Hr & Ho & _).
  split; [by eexists|]. by rewrite Ho.
Defined.

(** ** Identifiers stay distinct *)

Lemma updateMedia_ids i b mf : id <$> (updateMedia i b mf).2 = id <$> mf.
Proof.
  destruct (list_find (λ f, id f = i) mf) as [[k f]|] eqn:Hfind;
    [|by rewrite (updateMedia_missing i b mf Hfind)].
  destruct (updateMedia_found i b mf k f Hfind) as [_ Hl].
  apply list_find_Some in Hfind as (Hk & _ & _).
  apply list_eq. intros j. rewrite !list_lookup_fmap, Hl.
  case_decide; subst.
  - rewrite Hk. simpl. by destruct (patchFile_fields b f) as (-> & _).
  - destruct (mf !! j) as [g|]; [|done]. simpl.
    by destruct (sweep_fields i b g) as (-> & _).
Qed.

Lemma NoDup_ids_sublist (l1 l2 : list MediaRecord) :
  l1 `sublist_of` l2 → NoDup (id <$> l2) → NoDup (id <$> l1).
Proof. intros Hsub Hnd. eapply sublist_NoDup; [exact Hnd|]. by apply fmap_sublist. Qed.

Lemma NoDup_ids_snoc (mf : list MediaRecord) (g : MediaRecord) :
  NoDup (id <$> mf) → id g ∉ id <$> mf → NoDup (id <$> (mf ++ [g])%list).
Proof.
  intros Hnd Hfresh. rewrite fmap_app. apply NoDup_app. split; [done|]. split.
  - intros x Hx [->|Hn]%elem_of_cons; [done|]. by apply elem_of_nil in Hn.
  - apply NoDup_singleton.
Qed.

(** X19.  The handlers keep the identifiers of the index distinct.  In
    each of the three servers a PUT and a DELETE leave an index of
    distinct identifiers with distinct identifiers, and so does a POST
    whenever the identifier generated for the record is not yet in the
    index. *)
Theorem identifiers_stay_distinct (uuidFile uuidRec i : string) (req : request)
    (b : body) (w : Local.world) (c : Bucket.world) :
  (NoDup (id <$> Local.mediaFiles w) →
   NoDup (id <$> Local.mediaFiles (Local.updateMedia i b w).2)
   ∧ NoDup (id <$> Local.mediaFiles (Local.deleteMedia i w).2)
   ∧ (uuidRec ∉ id <$> Local.mediaFiles w →
      NoDup (id <$> Local.mediaFiles
                      (Local.createMedia uuidFile uuidRec req w).2)))
  ∧ (NoDup (id <$> Bucket.mediaFiles c) →
     NoDup (id <$> Bucket.mediaFiles (Firebase.updateMedia i b c).2)
     ∧ NoDup (id <$> Bucket.mediaFiles (Firebase.deleteMedia i c).2)
     ∧ NoDup (id <$> Bucket.mediaFiles
                      (Firebase.createMedia uuidFile uuidRec req c).2)
     ∧ NoDup (id <$> Bucket.mediaFiles (CloudFn.updateMedia i b c).2)
     ∧ NoDup (id <$> Bucket.mediaFiles (CloudFn.deleteMedia i c).2)
     ∧ (uuidRec ∉ id <$> Bucket.mediaFiles c →
        NoDup (id <$> Bucket.mediaFiles
                        (CloudFn.createMedia uuidFile uuidRec req c).2))).
Proof.
  split; intros Hnd.
  - split; [|split].
    + unfold Local.updateMedia.
      pose proof (updateMedia_ids i b (Local.mediaFiles w)) as Hids.
      destruct (updateMedia i b (Local.mediaFiles w)) as [r mf]. simpl in *.
      by rewrite Hids.
    + pose proof (deleteMedia_local i w) as HL.
      destruct (list_find _ _) as [[k f]|]; [|by rewrite HL].
      destruct (Local.unlink _ _); [|by rewrite HL].
      destruct HL as [-> _]. simpl.
      eapply NoDup_ids_sublist; [apply sublist_filter|done].
    + intros Hfresh.
      destruct (createMedia_local_index uuidFile uuidRec req w) as [Hadd Hkeep].
      destruct (Local.createMedia uuidFile uuidRec req w) as [r w1] eqn:E.
      simpl in *. destruct r as [g| | | | |]; try (rewrite Hkeep; done).
      rewrite (Hadd g eq_refl).
      apply createMedia_local_record in E as (f & _ & -> & _).
      by apply NoDup_ids_snoc.
  - repeat split.
    + unfold Firebase.updateMedia.
      pose proof (updateMedia_ids i b (Bucket.mediaFiles c)) as Hids.
      destruct (updateMedia i b (Bucket.mediaFiles c)) as [r mf]. simpl in *.
      by rewrite Hids.
    + pose proof (deleteMedia_firebase i c) as HF.
      destruct (list_find _ _) as [[k f]|]; [|by rewrite HF].
      pose proof (firebase_removal (url f) c) as Hrem.
      destruct (Bucket.bind _ _ c) as [[[]|e] c']; rewrite HF; simpl.
      * destruct Hrem as (p & _ & _ & _ & _ & ->).
        eapply NoDup_ids_sublist; [apply sublist_delete|done].
      * by destruct Hrem as [_ ->].
    + by destruct (createMedia_firebase_index uuidFile uuidRec req c)
        as (_ & _ & _ & ->).
    + unfold CloudFn.updateMedia.
      pose proof (updateMedia_ids i b (Bucket.mediaFiles c)) as Hids.
      destruct (updateMedia i b (Bucket.mediaFiles c)) as [r mf]. simpl in *.
      by rewrite Hids.
    + unfold CloudFn.deleteMedia.
      destruct (list_find _ _) as [[k f]|]; [|done].
      assert (∀ m : Bucket.M unit,
                (∀ w', Bucket.mediaFiles (m w').2 = Bucket.mediaFiles w') →
                NoDup (id <$> Bucket.mediaFiles
                  (match m c with
                   | (Bucket.Ok _, w') =>
                       (FileDeleted,
                        Bucket.setMediaFiles
                          (filter (λ f, id f ≠ i) (Bucket.mediaFiles w')) w')
                   | (Bucket.Throw _, w') => (DeleteFailed, w')
                   end).2)) as Hcase.
      { intros m Hm. specialize (Hm c).
        destruct (m c) as [[[]|e] w']; simpl in *; rewrite Hm; [|done].
        eapply NoDup_ids_sublist; [apply sublist_filter|done]. }
      apply Hcase. intros w'.
      destruct (CloudFn.firebasePath (url f)) as [p|]; [|done].
      destruct (String.eqb p ""); [done|].
      unfold Bucket.deleteObject, Bucket.storeCall.
      destruct (Bucket.outage _ _); [done|]. simpl.
      by destruct (Bucket.findObject _ _).
    + intros Hfresh.
      destruct (createMedia_cloudfn_index uuidFile uuidRec req c) as [Hadd Hkeep].
      destruct (CloudFn.createMedia uuidFile uuidRec req c) as [r c1] eqn:E.
      simpl in *. destruct r as [g| | | | |]; try (rewrite Hkeep; done).
      rewrite (Hadd g eq_refl).
      apply createMedia_cloudfn_record in E as (f & location & _ & ->).
      by apply NoDup_ids_snoc.
Qed.

Lemma identifiers_stay_distinct_witness :
  NoDup (id <$> Local.mediaFiles
                  (Local.createMedia "f1" "r1"
                     (mkRequest (Some (photo 1024)) (asThumbnailOf "P1"))
                     oneClip).2).
Proof.
  destruct (identifiers_stay_distinct "f1" "r1" "a"
              (mkRequest (Some (photo 1024)) (asThumbnailOf "P1"))
              (onlyThumbnail true) oneClip idleBucket) as [Hlocal _].
  destruct Hlocal as (_ & _ & Hpost).
  - apply (bool_decide_unpack _). by vm_compute.
  - apply Hpost. apply (bool_decide_unpack _). by vm_compute.
Defined.

(** ** Where thumbnail exclusivity is kept *)

Lemma exclusive_cons (x : MediaRecord) (l : list MediaRecord) :
  exclusive (x :: l)
  ↔ exclusive l
    ∧ ∀ g, g ∈ l → platformId x ≠ JNull → platformId x = platformId g →
           isThumbnail x = true → isThumbnail g = true → False.
Proof.
  split.
  - intros Hex. split.
    + intros j1 j2 g1 g2 H1 H2 Hn Hs Ht1 Ht2.
      by specialize (Hex (S j1) (S j2) g1 g2 H1 H2 Hn Hs Ht1 Ht2) as [= ->].
    + intros g [j Hj]%list_elem_of_lookup Hn Hs Ht1 Ht2.
      by specialize (Hex 0%nat (S j) x g eq_refl Hj Hn Hs Ht1 Ht2).
  - intros [Hex Hx] j1 j2 g1 g2 H1 H2 Hn Hs Ht1 Ht2.
    destruct j1 as [|j1], j2 as [|j2]; simpl in *.
    + done.
    + inversion H1; subst g1. destruct (Hx g2); try done.
      by eapply list_elem_of_lookup_2.
    + inversion H2; subst g2. destruct (Hx g1); try done; try congruence.
      by eapply list_elem_of_lookup_2.
    + f_equal. by apply (Hex j1 j2 g1 g2).
Qed.

Lemma exclusive_sublist (l1 l2 : list MediaRecord) :
  l1 `sublist_of` l2 → exclusive l2 → exclusive l1.
Proof.
  induction 1 as [|x l1 l2 Hsub IH|x l1 l2 Hsub IH]; [done|..].
  - rewrite !exclusive_cons. intros [Hex Hx]. split; [by apply IH|].
    intros g Hg. apply Hx. by eapply elem_of_sublist.
  - rewrite exclusive_cons. intros [Hex _]. by apply IH.
Qed.

Lemma exclusive_snoc (l : list MediaRecord) (g : MediaRecord) :
  isThumbnail g = false ∨ platformId g = JNull →
  exclusive l → exclusive (l ++ [g])%list.
Proof.
  intros Hg Hex j1 j2 g1 g2 H1 H2 Hn Hs Ht1 Ht2.
  apply lookup_app_Some in H1 as [H1|[Hl1 H1]];
    apply lookup_app_Some in H2 as [H2|[Hl2 H2]].
  - by apply (Hex j1 j2 g1 g2).
  - apply list_lookup_singleton_Some in H2 as [_ <-].
    destruct Hg as [Hg|Hg]; congruence.
  - apply list_lookup_singleton_Some in H1 as [_ <-].
    destruct Hg as [Hg|Hg]; congruence.
  - apply list_lookup_singleton_Some in H1 as [? _].
    apply list_lookup_singleton_Some in H2 as [? _]. lia.
Qed.

(** X20.  Where the servers keep thumbnail exclusivity.  A DELETE keeps
    an exclusive index exclusive in each of the three servers, and so
    does a POST whose [isThumbnail] field is not the string [true] or
    whose [platformId] is absent or falsy (the record is then not
    flagged, or has no platform). *)
Theorem exclusivity_kept (uuidFile uuidRec i : string) (req : request)
    (w : Local.world) (c : Bucket.world) :
  (exclusive (Local.mediaFiles w) →
   exclusive (Local.mediaFiles (Local.deleteMedia i w).2)
   ∧ (body_isThumbnail (req_body req) ≠ Some (JStr "true")
      ∨ truthy_opt (body_platformId (req_body req)) = false →
      exclusive (Local.mediaFiles (Local.createMedia uuidFile uuidRec req w).2)))
  ∧ (exclusive (Bucket.mediaFiles c) →
     exclusive (Bucket.mediaFiles (Firebase.deleteMedia i c).2)
     ∧ exclusive (Bucket.mediaFiles (Firebase.createMedia uuidFile uuidRec req c).2)
     ∧ exclusive (Bucket.mediaFiles (CloudFn.deleteMedia i c).2)
     ∧ (body_isThumbnail (req_body req) ≠ Some (JStr "true")
        ∨ truthy_opt (body_platformId (req_body req)) = false →
        exclusive
          (Bucket.mediaFiles (CloudFn.createMedia uuidFile uuidRec req c).2))).
Proof.
  assert (∀ u f loc,
            body_isThumbnail (req_body req) ≠ Some (JStr "true")
            ∨ truthy_opt (body_platformId (req_body req)) = false →
            isThumbnail (newFile u f loc (req_body req)) = false
            ∨ platformId (newFile u f loc (req_body req)) = JNull) as Hnew.
  { intros u f loc [Ht|Hp]; [left|right].
    - destruct (isThumbnail _) eqn:E; [|done].
      by apply newFile_isThumbnail in E.
    - simpl. unfold js_or. destruct (body_platformId _) as [v|]; [|done].
      simpl in Hp. by rewrite Hp. }
  split; intros Hex.
  - split.
    + pose proof (deleteMedia_local i w) as HL.
      destruct (list_find _ _) as [[k f]|]; [|by rewrite HL].
      destruct (Local.unlink _ _); [|by rewrite HL].
      destruct HL as [-> _]. simpl.
      eapply exclusive_sublist; [apply sublist_filter|done].
    + intros Hreq.
      destruct (createMedia_local_index uuidFile uuidRec req w) as [Hadd Hkeep].
      destruct (Local.createMedia uuidFile uuidRec req w) as [r w1] eqn:E.
      simpl in *. destruct r as [g| | | | |]; try (rewrite Hkeep; done).
      rewrite (Hadd g eq_refl).
      apply createMedia_local_record in E as (f & _ & -> & _).
      apply exclusive_snoc; [by apply Hnew|done].
  - repeat split.
    + pose proof (deleteMedia_firebase i c) as HF.
      destruct (list_find _ _) as [[k f]|]; [|by rewrite HF].
      pose proof (firebase_removal (url f) c) as Hrem.
      destruct (Bucket.bind _ _ c) as [[[]|e] c']; rewrite HF; simpl.
      * destruct Hrem as (p & _ & _ & _ & _ & ->).
        eapply exclusive_sublist; [apply sublist_delete|done].
      * by destruct Hrem as [_ ->].
    + by destruct (createMedia_firebase_index uuidFile uuidRec req c)
        as (_ & _ & _ & ->).
    + unfold CloudFn.deleteMedia.
      destruct (list_find _ _) as [[k f]|]; [|done].
      assert (∀ m : Bucket.M unit,
                (∀ w', Bucket.mediaFiles (m w').2 = Bucket.mediaFiles w') →
                exclusive (Bucket.mediaFiles
                  (match m c with
                   | (Bucket.Ok _, w') =>
                       (FileDeleted,
                        Bucket.setMediaFiles
                          (filter (λ f, id f ≠ i) (Bucket.mediaFiles w')) w')
                   | (Bucket.Throw _, w') => (DeleteFailed, w')
                   end).2)) as Hcase.
      { intros m Hm. specialize (Hm c).
        destruct (m c) as [[[]|e] w']; simpl in *; rewrite Hm; [|done].
        eapply exclusive_sublist; [apply sublist_filter|done]. }
      apply Hcase. intros w'.
      destruct (CloudFn.firebasePath (url f)) as [p|]; [|done].
      destruct (String.eqb p ""); [done|].
      unfold Bucket.deleteObject, Bucket.storeCall.
      destruct (Bucket.outage _ _); [done|]. simpl.
      by destruct (Bucket.findObject _ _).
    + intros Hreq.
      destruct (createMedia_cloudfn_index uuidFile uuidRec req c) as [Hadd Hkeep].
      destruct (CloudFn.createMedia uuidFile uuidRec req c) as [r c1] eqn:E.
      simpl in *. destruct r as [g| | | | |]; try (rewrite Hkeep; done).
      rewrite (Hadd g eq_refl).
      apply createMedia_cloudfn_record in E as (f & location & _ & ->).
      apply exclusive_snoc; [by apply Hnew|done].
Qed.

Lemma exclusivity_kept_witness :
  exclusive
    (Local.mediaFiles
       (Local.createMedia "f1" "r1"
          (mkRequest (Some (photo 1024)) (mkBody None (Some (JStr "P1")) None))
          (Local.mkWorld [] [clipB])).2).
Proof.
  destruct (exclusivity_kept "f1" "r1" "a"
              (mkRequest (Some (photo 1024)) (mkBody None (Some (JStr "P1")) None))
              (Local.mkWorld [] [clipB]) idleBucket) as [Hlocal _].
  destruct Hlocal as [_ Hpost].
  - intros j1 j2 g1 g2 H1 H2 _ _ _ _.
    apply list_lookup_singleton_Some in H1 as [-> _].
    by apply list_lookup_singleton_Some in H2 as [-> _].
  - apply Hpost. by left.
Defined.

(** ** What a DELETE frees, what a POST records *)

Lemma removeEntry_total n dir dir' :
  Local.removeEntry n dir = Some dir' →
  ∃ sz, Local.File n sz ∈ dir
        ∧ Local.getDirSize dir = Local.getDirSize dir' + sz.
Proof.
  revert dir'. induction dir as [|e dir IH]; intros dir' H; [done|].
  destruct e as [m s|m es]; simpl in H; destruct (String.eqb_spec m n).
  - inversion H; subst. exists s. split; [apply list_elem_of_here|].
    rewrite getDirSize_cons. simpl. lia.
  - destruct (Local.removeEntry n dir) as [d|]; [|done]. inversion H; subst.
    destruct (IH d eq_refl) as (sz & Hin & Hsz). exists sz.
    split; [by apply list_elem_of_further|]. rewrite !getDirSize_cons. lia.
  - done.
  - destruct (Local.removeEntry n dir) as [d|]; [|done]. inversion H; subst.
    destruct (IH d eq_refl) as (sz & Hin & Hsz). exists sz.
    split; [by apply list_elem_of_further|]. rewrite !getDirSize_cons. lia.
Qed.

(** X21.  When the local-disk server replies [File deleted], a file
    named by the base name of the record's address was stored directly
    under UPLOAD_PATH, and the total [getDirSize] computes has gone
    down by exactly the size of that file. *)
Theorem deleteMedia_local_frees (i : string) (w w1 : Local.world) :
  Local.deleteMedia i w = (FileDeleted, w1) →
  ∃ k f sz,
    list_find (λ f, id f = i) (Local.mediaFiles w) = Some (k, f)
    ∧ Local.File (basename (url f)) sz ∈ Local.disk w
    ∧ Local.getDirSize (Local.disk w1) = Local.getDirSize (Local.disk w) - sz.
Proof.
  intros H. pose proof (deleteMedia_local i w) as HL.
  destruct (list_find _ (Local.mediaFiles w)) as [[k f]|]; [|by rewrite HL in H].
  destruct (Local.unlink _ _) as [dir'|] eqn:Hu; [|by rewrite HL in H].
  destruct HL as [HL _]. rewrite HL in H. inversion H; subst w1. simpl.
  unfold Local.unlink in Hu. destruct (_ || _); [done|].
  apply removeEntry_total in Hu as (sz & Hin & Hsz).
  exists k, f, sz. repeat split; try done. lia.
Qed.

Lemma deleteMedia_local_frees_witness :
  Local.getDirSize (Local.disk (Local.deleteMedia "a" oneClip).2) = 0.
Proof.
  destruct (deleteMedia_local_frees "a" oneClip
              (Local.deleteMedia "a" oneClip).2 eq_refl)
    as (k & f & sz & Hfind & Hin & Hsz).
  rewrite Hsz. inversion Hfind; subst k f.
  apply list_elem_of_singleton in Hin. inversion Hin; subst sz. reflexivity.
Defined.

(** X22.  A record created by the POST handler of the local-disk or of
    the Cloud Functions server comes from an upload that passed the
    middleware: its [type] is the MIME type of the upload and is on the
    allow-list, the upload is within the size limit, its [id] is the
    generated record identifier, its [name] is the [name] field of the
    request when that is truthy and the original file name otherwise,
    and its [platformId] is the [platformId] field of the request when
    that is truthy and null otherwise. *)
Theorem createMedia_record_fields (uuidFile uuidRec : string) (req : request)
    (w w' : Local.world) (c c' : Bucket.world) (g : MediaRecord) :
  Local.createMedia uuidFile uuidRec req w = (ReplyJson g, w')
  ∨ CloudFn.createMedia uuidFile uuidRec req c = (ReplyJson g, c') →
  ∃ f, file req = Some f
    ∧ size f ≤ fileSizeLimit
    ∧ type g = mimetype f ∧ type g ∈ allowedTypes
    ∧ id g = uuidRec
    ∧ name g = (if truthy_opt (body_name (req_body req))
                then default JNull (body_name (req_body req))
                else JStr (originalname f))
    ∧ platformId g = (if truthy_opt (body_platformId (req_body req))
                      then default JNull (body_platformId (req_body req))
                      else JNull).
Proof.
  assert (∀ f loc, fileFilter f = true → (fileSizeLimit <? size f) = false →
            size f ≤ fileSizeLimit
            ∧ type (newFile uuidRec f loc (req_body req)) = mimetype f
            ∧ type (newFile uuidRec f loc (req_body req)) ∈ allowedTypes
            ∧ id (newFile uuidRec f loc (req_body req)) = uuidRec
            ∧ name (newFile uuidRec f loc (req_body req))
              = (if truthy_opt (body_name (req_body req))
                 then default JNull (body_name (req_body req))
                 else JStr (originalname f))
            ∧ platformId (newFile uuidRec f loc (req_body req))
              = (if truthy_opt (body_platformId (req_body req))
                 then default JNull (body_platformId (req_body req))
                 else JNull)) as Hnew.
  { intros f loc Hfilter Hsize. apply Z.ltb_ge in Hsize.
    unfold fileFilter in Hfilter. apply bool_decide_eq_true in Hfilter.
    repeat split; try done; simpl; unfold js_or.
    - destruct (body_name _) as [v|]; [|done]. simpl. by destruct (truthy v).
    - destruct (body_platformId _) as [v|]; [|done]. simpl. by destruct (truthy v). }
  intros [H|H].
  - unfold Local.createMedia, Local.upload_single in H.
    destruct (file req) as [f|]; [|done].
    destruct (fileFilter f) eqn:Hfilter; [|done]. simpl in H.
    destruct (fileSizeLimit <? size f) eqn:Hsize; [done|].
    destruct (Local.writeFile _ _ _) as [dir|]; [|done].
    destruct (MAX_TOTAL_SIZE <? _); [by destruct (Local.unlink _ _)|].
    inversion H; subst g. exists f. split; [done|]. by apply Hnew.
  - unfold CloudFn.createMedia, Bucket.upload_single in H.
    destruct (file req) as [f|]; [|done].
    destruct (fileFilter f) eqn:Hfilter; [|done]. simpl in H.
    destruct (fileSizeLimit <? size f) eqn:Hsize; [done|].
    destruct (CloudFn.persist _ _ _ _ _) as [[nf|e] c1] eqn:E; [|done].
    inversion H; subst nf. exists f. split; [done|].
    unfold CloudFn.persist, Bucket.bind in E.
    destruct (Bucket.save _ _ _ _) as [[?|?] ?]; [|done].
    destruct (Bucket.getMetadata _ _) as [[metadata|?] ?]; [|done].
    inversion E. by apply Hnew.
Qed.

Lemma createMedia_record_fields_witness :
  ∃ g, (Local.createMedia "f1" "r1"
          (mkRequest (Some (photo 1024)) (mkBody (Some (JStr "")) (Some (JStr "")) None))
          emptyDisk).1 = ReplyJson g
    ∧ name g = JStr "shot.png" ∧ platformId g = JNull.
Proof.
  set (req := mkRequest (Some (photo 1024))
                (mkBody (Some (JStr "")) (Some (JStr "")) None)).
  exists (newFile "r1" (photo 1024) "/uploads/f1.png" (req_body req)).
  split; [reflexivity|].
  destruct (createMedia_record_fields "f1" "r1" req emptyDisk
              (Local.createMedia "f1" "r1" req emptyDisk).2 idleBucket idleBucket
              (newFile "r1" (photo 1024) "/uploads/f1.png" (req_body req)))
    as (f & Hf & _ & _ & _ & _ & Hname & Hplat).
  { left. reflexivity. }
  inversion Hf; subst f. split; [exact Hname|exact Hplat].
Defined.
